(** * scripts/fetch_github_contributions.py

    A shallow embedding of the contribution fetcher, the merger and the
    orchestrating [main], with the properties of the written specification
    stated on it.

    Conventions of the embedding.
    - Python [str] values are [string]s, the bytes of their UTF-8
      encoding; [str.strip] removes the white space of [str.isspace] in
      that encoding, [str.lower] is the ASCII lower-casing (GitHub logins
      are ASCII letters, digits and hyphens).
    - A Python [dict] whose iteration order reaches the output (the
      [orgs], [year_orgs], [auto_orgs], [manual_orgs] and [combined]
      dictionaries) is an insertion-ordered association list with unique
      keys.
    - The per-year datasets ([all_contributions], the manual file, the value
      returned by [merge_contributions]) are [gmap string (list org)]: their
      key order is either fixed afterwards by [sorted] or, for [merged],
      inherited from the iteration order of a Python [set].
    - JSON values are typed after the schema that produces them: a decoded
      response body is an object shaped after the GraphQL query of lines
      44-99, in which every key the code reads may be absent, [null] or
      present; the manual file is shaped after the data model (year label
      to list of records with the four keys).  A key whose value is an
      object or a list is a [field], which tells [null] from absent, since
      the code raises on the first and falls back to a default on the
      second; a key read as a plain value is an [option], [None] when it
      is absent or [null].
    - The network, the manual file and the file system are inputs of the
      run; the exceptions they can raise are values of [exn], and the
      requests sent and the file written are the state of the run.  What
      the script prints is left out. *)

From Stdlib Require Import ZArith Ascii String.
From stdpp Require Import gmap strings list fin_maps sorting pretty.

Local Open Scope string_scope.
Local Open Scope list_scope.
Local Open Scope Z_scope.

(** ** Strings *)

(** [c.lower()] for one ASCII character. *)
Definition lower_ascii (c : ascii) : ascii :=
  let n := N_of_ascii c in
  if ((65 <=? n) && (n <=? 90))%N then ascii_of_N (n + 32) else c.

(** [s.lower()] *)
Fixpoint lower (s : string) : string :=
  match s with
  | EmptyString => EmptyString
  | String c s' => String (lower_ascii c) (lower s')
  end.

(** The characters removed by [str.strip()] with no argument are those of
    [str.isspace].  In UTF-8 they take one byte (U+0009 to U+000D, U+001C
    to U+0020), two bytes (U+0085, U+00A0) or three (U+1680, U+2000 to
    U+200A, U+2028, U+2029, U+202F, U+205F, U+3000). *)
Definition is_space (c : ascii) : bool :=
  let n := N_of_ascii c in
  (((9 <=? n) && (n <=? 13)) || ((28 <=? n) && (n <=? 32)))%N.

Definition is_space2 (c d : ascii) : bool :=
  let '(m, n) := (N_of_ascii c, N_of_ascii d) in
  ((m =? 194) && ((n =? 133) || (n =? 160)))%N.

Definition is_space3 (c d e : ascii) : bool :=
  let '(l, m, n) := (N_of_ascii c, N_of_ascii d, N_of_ascii e) in
  (((l =? 225) && (m =? 154) && (n =? 128))
   || ((l =? 226) && (m =? 128)
       && (((128 <=? n) && (n <=? 138)) || (n =? 168) || (n =? 169)
           || (n =? 175)))
   || ((l =? 226) && (m =? 129) && (n =? 159))
   || ((l =? 227) && (m =? 128) && (n =? 128)))%N.

(** Removes, from the head of a string, the characters that one of three
    tests recognises on their one, two or three bytes. *)
Fixpoint strip_head (sp1 : ascii → bool) (sp2 : ascii → ascii → bool)
    (sp3 : ascii → ascii → ascii → bool) (s : string) : string :=
  match s with
  | EmptyString => EmptyString
  | String c r =>
      if sp1 c then strip_head sp1 sp2 sp3 r
      else match r with
           | String d r' =>
               if sp2 c d then strip_head sp1 sp2 sp3 r'
               else match r' with
                    | String e r'' =>
                        if sp3 c d e then strip_head sp1 sp2 sp3 r'' else s
                    | EmptyString => s
                    end
           | EmptyString => s
           end
  end.

Fixpoint rev_string (s : string) : string :=
  match s with
  | EmptyString => EmptyString
  | String c r => rev_string r +:+ String c EmptyString
  end.

(** [s.lstrip()] *)
Definition lstrip (s : string) : string :=
  strip_head is_space is_space2 is_space3 s.

(** [s.rstrip()]: the same from the other end, where the bytes of a
    character come last byte first. *)
Definition rstrip (s : string) : string :=
  rev_string
    (strip_head is_space (λ c d, is_space2 d c) (λ c d e, is_space3 e d c)
       (rev_string s)).

(** [s.strip()] *)
Definition strip (s : string) : string := rstrip (lstrip s).

(** [s.split(sep)] for a one-character separator: the pieces between the
    separators, empty pieces included, so that the result is never empty. *)
Fixpoint split (sep : ascii) (s : string) : list string :=
  match s with
  | EmptyString => [EmptyString]
  | String c s' =>
      if Ascii.eqb c sep then EmptyString :: split sep s'
      else match split sep s' with
           | [] => [String c EmptyString]
           | piece :: pieces => String c piece :: pieces
           end
  end.

(** Truth value of a string: [bool(s)]. *)
Definition nonempty (s : string) : bool :=
  match s with EmptyString => false | String _ _ => true end.

(** ** Insertion-ordered dictionaries *)

Section dict.
Context {V : Type}.

(** A [dict] with [str] keys, in insertion order. *)
Definition dict := list (string * V).

(** [d.get(k)] *)
Fixpoint dict_get (k : string) (d : dict) : option V :=
  match d with
  | [] => None
  | (k', v') :: d' => if String.eqb k k' then Some v' else dict_get k d'
  end.

(** [k in d] *)
Definition dict_mem (k : string) (d : dict) : bool :=
  match dict_get k d with Some _ => true | None => false end.

(** [d[k] = v]: an existing key keeps its position and takes the new
    value, a new key goes to the end. *)
Fixpoint dict_set (k : string) (v : V) (d : dict) : dict :=
  match d with
  | [] => [(k, v)]
  | (k', v') :: d' =>
      if String.eqb k k' then (k', v) :: d' else (k', v') :: dict_set k v d'
  end.

(** [{**a, **b}] *)
Definition dict_union (a b : dict) : dict :=
  foldl (λ d kv, dict_set kv.1 kv.2 d) a b.

(** [list(d.values())] *)
Definition dict_values (d : dict) : list V := d.*2.

(** [list(d.keys())] *)
Definition dict_keys (d : dict) : list string := d.*1.
End dict.

Arguments dict V : clear implicits.

(** ** Organization records *)

(** The record built at lines 147-152 and read from the manual file:
    [{"login": .., "name": .., "avatarUrl": .., "url": ..}].  [url] is
    [None] when the owner object carries no ["url"]. *)
Record org := Org {
  login : string;
  name : string;
  avatarUrl : string;
  url : option string;
}.

Global Instance org_eq_dec : EqDecision org.
Proof. solve_decision. Defined.

(** A contribution dataset: year label to the year's list of records. *)
Abbreviation dataset := (gmap string (list org)).

(** ** merge_contributions (lines 166-180) *)

(** [{org["login"]: org for org in orgs}] *)
Definition by_login (orgs : list org) : dict org :=
  foldl (λ d o, dict_set (login o) o d) [] orgs.

(** The body of the loop over [all_years], for the two lists
    [auto.get(year, [])] and [manual.get(year, [])]. *)
Definition merge_year (auto_list manual_list : list org) : list org :=
  let auto_orgs := by_login auto_list in
  let manual_orgs := by_login manual_list in
  let combined := dict_union auto_orgs manual_orgs in
  dict_values combined.

Definition merge_contributions (auto manual : dataset) : dataset :=
  let all_years : gset string := dom auto ∪ dom manual in
  set_to_map
    (λ year, (year, merge_year (default [] (auto !! year))
                               (default [] (manual !! year))))
    all_years.

(** ** The GraphQL response *)

(** A key of a JSON object whose value is an object or a list. *)
Inductive field (A : Type) :=
| Absent
| Null
| Present (a : A).
Arguments Absent {A}.
Arguments Null {A}.
Arguments Present {A} a.

(** [obj.get(key, default)]: the default for an absent key, [None] for a
    key that is [null], the value otherwise. *)
Definition get_default {A} (f : field A) (default : A) : option A :=
  match f with
  | Absent => Some default
  | Null => None
  | Present a => Some a
  end.

(** The [owner] object of a repository.  Its four keys are read as plain
    values, with [owner.get(key)]: [None] when the key is absent or
    [null].  An owner that is not an organization comes back as the empty
    object. *)
Record owner := Owner {
  owner_login : option string;
  owner_name : option string;
  owner_avatarUrl : option string;
  owner_url : option string;
}.

Record repository := Repository {
  repo_owner : field owner;
  isPrivate : option bool;
}.

(** One element of a [...ContributionsByRepository] list.  An element that
    is itself [null] is written as an element whose ["repository"] is
    [null]: the loop raises the same [AttributeError] on both, at line 133
    or at line 134. *)
Record repo_contrib := RepoContrib {
  contrib_repository : field repository;
}.

(** The value [{}] that the [.get(key, {})] calls fall back to. *)
Definition empty_owner : owner := Owner None None None None.
Definition empty_repository : repository := Repository Absent None.

Inductive contribution_type :=
| commitContributionsByRepository
| pullRequestContributionsByRepository
| issueContributionsByRepository.

Definition contribution_types : list contribution_type :=
  [ commitContributionsByRepository;
    pullRequestContributionsByRepository;
    issueContributionsByRepository ].

(** The objects on the way to the lists: ["contributionsCollection"],
    with the list under each contribution type, ["user"] and ["data"]. *)
Record collection_object := CollectionObject {
  by_repository : contribution_type → field (list repo_contrib);
}.

Record user_object := UserObject {
  contributionsCollection : field collection_object;
}.

Record data_object := DataObject {
  user : field user_object;
}.

Definition empty_collection : collection_object :=
  CollectionObject (λ _, Absent).
Definition empty_user : user_object := UserObject Absent.
Definition empty_data : data_object := DataObject Absent.

(** The decoded body [data]: whether it has a top-level ["errors"] key, and
    its ["data"] key. *)
Record body := Body {
  errors : bool;
  body_data : field data_object;
}.

(** What [requests.post] returns: the status, and the result of
    [response.json()], [None] when the body is not JSON and the call
    raises. *)
Record response := Response {
  status_code : Z;
  json : option body;
}.

(** ** Exceptions and the world *)

Inductive exn :=
| ConnectionError      (* requests.post *)
| JSONDecodeError      (* response.json(), json.load *)
| AttributeError       (* a method call on None *)
| TypeError            (* a loop over None *)
| OSError.             (* mkdir, open *)

Inductive result (A : Type) :=
| Ok (a : A)
| Raise (e : exn).
Arguments Ok {A} a.
Arguments Raise {A} e.

(** The request of lines 106-110: the bearer token of the [Authorization]
    header and the three query variables. *)
Record request := Request {
  bearer : string;
  var_username : string;
  var_from : string;
  var_to : string;
}.

Inductive http_result :=
| Responded (r : response)
| Unreachable.    (* requests.post raises *)

(** The endpoint: its answer to a request may depend on the requests that
    were sent before it. *)
Definition network := list request → request → http_result.

(** The ordered content of the output file: [json.dump] of a [dict]. *)
Definition file_content := list (string * list org).

(** The part of the world the script changes: the requests sent so far and
    what this run wrote to [OUTPUT_FILE]. *)
Record world := World {
  sent : list request;
  output_file : option file_content;
}.

Definition IO (A : Type) : Type := world → result A * world.

Definition ret {A} (a : A) : IO A := λ w, (Ok a, w).
Definition raise {A} (e : exn) : IO A := λ w, (Raise e, w).
Definition bind {A B} (m : IO A) (k : A → IO B) : IO B :=
  λ w, match m w with
       | (Ok a, w') => k a w'
       | (Raise e, w') => (Raise e, w')
       end.

Notation "'let*' x ':=' m 'in' k" := (bind m (λ x, k))
  (at level 10, x name, m at level 100, k at level 200).

(** [requests.post(GITHUB_API, json=.., headers=..)] *)
Definition post (net : network) (req : request) : IO response :=
  λ w, let w' := World (sent w ++ [req]) (output_file w) in
       match net (sent w) req with
       | Responded r => (Ok r, w')
       | Unreachable => (Raise ConnectionError, w')
       end.

(** ** get_contributions_for_year (lines 38-155) *)

(** The state of the two nested loops: [orgs] and [orgs_with_public]. *)
Definition scan_state : Type := dict org * gset string.

(** A method call on a value that may be [None]: [None.get(..)] raises
    [AttributeError]. *)
Definition call {A B} (x : option A) (k : A → result B) : result B :=
  match x with
  | Some a => k a
  | None => Raise AttributeError
  end.

(** A [for] loop whose body may raise: the exception ends the loop. *)
Fixpoint for_each {S A} (body : S → A → result S) (st : S) (l : list A)
  : result S :=
  match l with
  | [] => Ok st
  | x :: l' =>
      match body st x with
      | Ok st' => for_each body st' l'
      | Raise e => Raise e
      end
  end.

(** The body of the inner loop, lines 133-152, for one [repo_contrib]. *)
Definition visit (username : string) (st : scan_state) (rc : repo_contrib)
  : result scan_state :=
  let '(orgs, orgs_with_public) := st in
  let repo := get_default (contrib_repository rc) empty_repository in
  call repo (λ repo,
  let owner := get_default (repo_owner repo) empty_owner in
  call owner (λ owner,
  Ok
  match owner_login owner, owner_avatarUrl owner with
  | Some login, Some avatar =>
      if negb (nonempty login) || negb (nonempty avatar) then st
      else if String.eqb (lower login) (lower username) then st
      else
        let orgs_with_public :=
          if negb (default false (isPrivate repo))
          then {[ login ]} ∪ orgs_with_public
          else orgs_with_public in
        let orgs :=
          if negb (dict_mem login orgs)
          then dict_set login
                 {| login := login;
                    name := match owner_name owner with
                            | Some n => if nonempty n then n else login
                            | None => login
                            end;
                    avatarUrl := avatar;
                    url := owner_url owner |}
                 orgs
          else orgs in
        (orgs, orgs_with_public)
  | _, _ => st
  end)).

(** Lines 120-152: the chain of [.get] calls of line 122, then both loops,
    from the empty [orgs] and the empty set.  [collection] itself may be
    [None]: the call that raises is then the one of line 131. *)
Definition scan (username : string) (data : body) : result scan_state :=
  call (get_default (body_data data) empty_data) (λ d,
  call (get_default (user d) empty_user) (λ u,
  let collection := get_default (contributionsCollection u) empty_collection in
  for_each
    (λ st contrib_type,
       call collection (λ collection,
       match get_default (by_repository collection contrib_type) [] with
       | Some repos => for_each (visit username) st repos
       | None => Raise TypeError
       end))
    ([], ∅) contribution_types)).

(** Line 155: [[org for org in orgs.values() if org["login"] in orgs_with_public]] *)
Definition with_public (st : scan_state) : list org :=
  filter (λ o, login o ∈ st.2) (dict_values st.1).

(** Lines 112-155: what the function does with the response. *)
Definition read_response (username : string) (r : response) : result (list org) :=
  if negb (status_code r =? 200) then Ok []
  else match json r with
       | None => Raise JSONDecodeError
       | Some data =>
           if errors data then Ok []
           else match scan username data with
                | Ok st => Ok (with_public st)
                | Raise e => Raise e
                end
       end.

(** [str(year)] and the two dates of lines 41-42. *)
Definition str (year : Z) : string := pretty year.

Definition query (token username : string) (year : Z) : request :=
  {| bearer := token;
     var_username := username;
     var_from := str year +:+ "-01-01T00:00:00Z";
     var_to := str year +:+ "-12-31T23:59:59Z" |}.

Definition get_contributions_for_year (net : network)
    (token username : string) (year : Z) : IO (list org) :=
  let* response := post net (query token username year) in
  match read_response username response with
  | Ok orgs => ret orgs
  | Raise e => raise e
  end.

(** ** load_manual_contributions (lines 158-163) *)

Inductive manual_file :=
| NoFile                    (* MANUAL_FILE does not exist *)
| NotJSON                   (* json.load raises *)
| Parsed (manual : dataset).

Definition load_manual_contributions (f : manual_file) : IO dataset :=
  match f with
  | NoFile => ret ∅
  | NotJSON => raise JSONDecodeError
  | Parsed manual => ret manual
  end.

(** ** main (lines 183-229) *)

Definition GITHUB_USERNAME : string := "haythemsellami".

(** What a run reads from outside. *)
Record environment := Environment {
  requests_installed : bool;        (* [import requests] succeeds *)
  GITHUB_TOKEN : option string;     (* os.environ *)
  now_year : Z;                     (* datetime.now().year *)
  net : network;
  manual : manual_file;
  output_writable : bool;           (* mkdir and open succeed *)
}.

(** [[t.strip() for t in token_str.split(",") if t.strip()]] *)
Definition parse_tokens (token_str : string) : list string :=
  filter (λ t, nonempty t = true) (strip <$> split "," token_str).

(** [range(start, stop, -1)] *)
Definition range_down (start stop : Z) : list Z :=
  (λ i : nat, start - Z.of_nat i) <$> seq 0 (Z.to_nat (start - stop)).

(** Lines 204-206: the records of one token, first login wins. *)
Definition add_orgs (year_orgs : dict org) (orgs : list org) : dict org :=
  foldl (λ d o, if negb (dict_mem (login o) d) then dict_set (login o) o d else d)
        year_orgs orgs.

(** Lines 202-206: the loop over the tokens. *)
Fixpoint for_tokens (net : network) (year : Z) (tokens : list string)
    (year_orgs : dict org) : IO (dict org) :=
  match tokens with
  | [] => ret year_orgs
  | token :: tokens' =>
      let* orgs := get_contributions_for_year net token GITHUB_USERNAME year in
      for_tokens net year tokens' (add_orgs year_orgs orgs)
  end.

(** Lines 197-213: the loop over the years. *)
Fixpoint for_years (net : network) (tokens : list string) (years : list Z)
    (all_contributions : dataset) : IO dataset :=
  match years with
  | [] => ret all_contributions
  | year :: years' =>
      let* year_orgs := for_tokens net year tokens [] in
      let bucket :=
        match year_orgs with
        | [] => []
        | _ => dict_values year_orgs
        end in
      for_years net tokens years' (<[str year := bucket]> all_contributions)
  end.

(** Line 222: [sorted(.., key=lambda x: x[0], reverse=True)], the items
    with the greater key first. *)
Definition key_ge (x y : string * list org) : Prop :=
  String.leb y.1 x.1 = true.

Global Instance key_ge_dec : RelDecision key_ge.
Proof. intros x y. unfold key_ge. apply _. Defined.

Definition sorted_desc (d : dataset) : file_content :=
  merge_sort key_ge (map_to_list d).

(** Lines 225-227 *)
Definition write_output (writable : bool) (content : file_content) : IO unit :=
  if writable then λ w, (Ok tt, World (sent w) (Some content))
  else raise OSError.

Definition main (env : environment) : IO unit :=
  let token_str := default "" (GITHUB_TOKEN env) in
  let tokens := parse_tokens token_str in
  let current_year := now_year env in
  let years_to_fetch := range_down current_year 2015 in
  let* all_contributions := for_years (net env) tokens years_to_fetch ∅ in
  let* manual := load_manual_contributions (manual env) in
  let all_contributions :=
    if decide (manual = ∅) then all_contributions
    else merge_contributions all_contributions manual in
  write_output (output_writable env) (sorted_desc all_contributions).

(** The process: the import guard of lines 26-30, then [main()].  An
    exception that nothing catches ends the interpreter with status 1. *)
Definition script (env : environment) : Z * world :=
  let w0 := World [] None in
  if requests_installed env then
    match main env w0 with
    | (Ok _, w) => (0, w)
    | (Raise _, w) => (1, w)
    end
  else (1, w0).

(** ** Vocabulary of the statements *)

(** A dictionary whose keys are distinct and are the logins of its
    records, as every dictionary of the script is. *)
Definition keyed (d : dict org) : Prop :=
  NoDup (dict_keys d) ∧ ∀ k o, (k, o) ∈ d → login o = k.

(** The record a list holds for an identifier: the last one with that
    login (the only one when the logins of the list are distinct). *)
Definition record_for (identifier : string) (orgs : list org) : option org :=
  last (filter (λ o, login o = identifier) orgs).

(** The value of a key that is present, a default otherwise. *)
Definition present {A} (f : field A) (default : A) : A :=
  match f with
  | Present a => a
  | _ => default
  end.

Definition is_null {A} (f : field A) : bool :=
  match f with
  | Null => true
  | _ => false
  end.

(** The ["contributionsCollection"] object of a body, and the list it has
    under a contribution type: empty when a key on the way is not
    present. *)
Definition collection_of (data : body) : collection_object :=
  present (contributionsCollection
             (present (user (present (body_data data) empty_data)) empty_user))
          empty_collection.

Definition collection (data : body) (contrib_type : contribution_type)
  : list repo_contrib :=
  present (by_repository (collection_of data) contrib_type) [].

(** The repository entries of a body, in the order the loops visit them. *)
Definition entries (data : body) : list repo_contrib :=
  collection data commitContributionsByRepository
  ++ collection data pullRequestContributionsByRepository
  ++ collection data issueContributionsByRepository.

(** [repo_contrib.get("repository", {})] and [repo.get("owner", {})], for
    an entry on which they are not [None]. *)
Definition repository_of (rc : repo_contrib) : repository :=
  present (contrib_repository rc) empty_repository.

Definition owner_of (rc : repo_contrib) : owner :=
  present (repo_owner (repository_of rc)) empty_owner.

(** An entry whose ["repository"] or ["owner"] is [null]: the loop raises
    on it. *)
Definition null_object (rc : repo_contrib) : bool :=
  is_null (contrib_repository rc) || is_null (repo_owner (repository_of rc)).

(** A body with a [null] where the code expects an object or a list:
    ["data"], ["user"], ["contributionsCollection"], one of the three
    lists, or the ["repository"] or ["owner"] of an entry. *)
Definition has_null (data : body) : bool :=
  is_null (body_data data)
  || is_null (user (present (body_data data) empty_data))
  || is_null (contributionsCollection
                (present (user (present (body_data data) empty_data))
                         empty_user))
  || existsb (λ contrib_type,
                is_null (by_repository (collection_of data) contrib_type))
             contribution_types
  || existsb null_object (entries data).

(** [not repo.get("isPrivate")] *)
Definition is_public (rc : repo_contrib) : bool :=
  negb (default false (isPrivate (repository_of rc))).

(** An owner with valid fields: a non-empty login and a non-empty avatar
    URL (line 137).  The result is the login. *)
Definition valid_owner (ow : owner) : option string :=
  match owner_login ow, owner_avatarUrl ow with
  | Some login, Some avatar =>
      if nonempty login && nonempty avatar then Some login else None
  | _, _ => None
  end.

(** The login under which an entry is counted: its owner is valid and is
    not the subject user (lines 137-140); [None] for an entry the loop
    skips. *)
Definition counted (username : string) (rc : repo_contrib) : option string :=
  match valid_owner (owner_of rc) with
  | Some login =>
      if String.eqb (lower login) (lower username) then None else Some login
  | None => None
  end.

(** [owner.get("name")] is absent, [null] or empty. *)
Definition no_name (ow : owner) : Prop :=
  owner_name ow = None ∨ owner_name ow = Some "".

(** The record of lines 147-152 for the owner of an entry. *)
Definition record_of (rc : repo_contrib) : org :=
  let ow := owner_of rc in
  let login := default "" (owner_login ow) in
  {| login := login;
     name := match owner_name ow with
             | Some n => if nonempty n then n else login
             | None => login
             end;
     avatarUrl := default "" (owner_avatarUrl ow);
     url := owner_url ow |}.

(** The first entry, in visiting order, counted under a login. *)
Definition first_entry (username identifier : string)
    (es : list repo_contrib) : option repo_contrib :=
  head (filter (λ rc, counted username rc = Some identifier) es).

(** The lists of the manual file for a year label: [manual.get(year, [])]. *)
Definition manual_entries (f : manual_file) (year : string) : list org :=
  match f with
  | Parsed m => default [] (m !! year)
  | _ => []
  end.

(** What one turn of the loop does to [orgs] and [orgs_with_public] when
    it does not raise. *)
Definition step (username : string) (st : scan_state) (rc : repo_contrib)
  : scan_state :=
  match counted username rc with
  | None => st
  | Some L =>
      (if dict_mem L st.1 then st.1 else dict_set L (record_of rc) st.1,
       if is_public rc then {[ L ]} ∪ st.2 else st.2)
  end.

(** The state of the loops of lines 130-152 after the entries [es], none
    of which raises. *)
Definition scanned (username : string) (es : list repo_contrib) : scan_state :=
  foldl (step username) ([], ∅) es.

(** A network on which every request is answered, and an answer with
    status 200 has a JSON body that has an ["errors"] key or has no [null]
    where the code expects an object or a list: no call of the fetcher
    raises. *)
Definition answers (net : network) : Prop :=
  ∀ log req, ∃ r, net log req = Responded r
                  ∧ (status_code r ≠ 200
                     ∨ ∃ data, json r = Some data
                               ∧ (errors data = true ∨ has_null data = false)).

(** ** Sample data *)

Definition Acme_fetched : org :=
  {| login := "Acme"; name := "Acme Corp";
     avatarUrl := "https://avatars.example/acme.png";
     url := Some "https://github.com/Acme" |}.

(** The same organization entered by hand, in lower case. *)
Definition acme_by_hand : org :=
  {| login := "acme"; name := "Acme";
     avatarUrl := "http://x/a.png"; url := Some "http://acme" |}.

(** A hand-written record under the fetched identifier, another name. *)
Definition Acme_by_hand : org :=
  {| login := "Acme"; name := "ACME, Inc.";
     avatarUrl := "http://x/a.png"; url := None |}.

Definition fetched_2020 : dataset := {[ "2020" := [Acme_fetched] ]}.
Definition by_hand_lower_2020 : dataset := {[ "2020" := [acme_by_hand] ]}.
Definition by_hand_2020 : dataset := {[ "2020" := [Acme_by_hand] ]}.

Definition owner_Acme : owner :=
  {| owner_login := Some "Acme"; owner_name := Some "Acme Corp";
     owner_avatarUrl := Some "https://avatars.example/acme.png";
     owner_url := Some "https://github.com/Acme" |}.

(** An organization without a display name. *)
Definition owner_nameless : owner :=
  {| owner_login := Some "initech"; owner_name := None;
     owner_avatarUrl := Some "https://avatars.example/initech.png";
     owner_url := Some "https://github.com/initech" |}.

(** An owner entry carrying the subject's own login, capitalized. *)
Definition owner_self : owner :=
  {| owner_login := Some "HaythemSellami"; owner_name := Some "Haythem";
     owner_avatarUrl := Some "https://avatars.example/hs.png";
     owner_url := Some "https://github.com/haythemsellami" |}.

Definition repo_of (ow : owner) (private : bool) : repo_contrib :=
  {| contrib_repository :=
       Present {| repo_owner := Present ow; isPrivate := Some private |} |}.

(** The ["data"] key of a body in which every object on the way to the
    three lists is present. *)
Definition found (lists : contribution_type → list repo_contrib)
  : field data_object :=
  Present (DataObject (Present (UserObject (Present (CollectionObject
    (λ contrib_type, Present (lists contrib_type))))))).

(** A collection with commits only. *)
Definition commits (es : list repo_contrib) : contribution_type → list repo_contrib :=
  λ contrib_type,
    match contrib_type with
    | commitContributionsByRepository => es
    | _ => []
    end.

(** Status 200, partial data together with an ["errors"] entry: what the
    API answers when one organization refuses the token. *)
Definition partial_response : response :=
  {| status_code := 200;
     json := Some {| errors := true;
                     body_data := found (commits [repo_of owner_Acme false]) |} |}.

Definition self_response : response :=
  {| status_code := 200;
     json := Some {| errors := false;
                     body_data := found (commits [repo_of owner_self false]) |} |}.

Definition public_data : body :=
  {| errors := false;
     body_data := found (commits [repo_of owner_Acme true;
                                  repo_of owner_nameless false;
                                  repo_of owner_Acme false]) |}.

Definition public_response : response :=
  {| status_code := 200; json := Some public_data |}.

(** The owner Acme once with its name and once without. *)
Definition owner_Acme_unnamed : owner :=
  {| owner_login := Some "Acme"; owner_name := None;
     owner_avatarUrl := Some "https://avatars.example/acme.png";
     owner_url := Some "https://github.com/Acme" |}.

Definition named_then_unnamed : response :=
  {| status_code := 200;
     json := Some {| errors := false;
                     body_data := found (commits [repo_of owner_Acme false;
                                                  repo_of owner_Acme_unnamed false]) |} |}.

(** Status 200 and [{"data": {"user": null}}]. *)
Definition null_user : response :=
  {| status_code := 200;
     json := Some {| errors := false;
                     body_data := Present (DataObject Null) |} |}.

Definition bad_gateway : response := {| status_code := 502; json := None |}.

Definition always (r : response) : network := λ _ _, Responded r.

Definition fresh_world : world := {| sent := []; output_file := None |}.

(** No token, the manual file of the written example, the year 2021. *)
Definition by_hand_only : environment :=
  {| requests_installed := true;
     GITHUB_TOKEN := None;
     now_year := 2021;
     net := always bad_gateway;
     manual := Parsed by_hand_lower_2020;
     output_writable := true |}.

(** The same, with a manual file that is not JSON. *)
Definition broken_manual_file : environment :=
  {| requests_installed := true;
     GITHUB_TOKEN := None;
     now_year := 2021;
     net := always bad_gateway;
     manual := NotJSON;
     output_writable := true |}.

(** Two tokens, every fetch failing with status 502. *)
Definition all_fetches_fail : environment :=
  {| requests_installed := true;
     GITHUB_TOKEN := Some "ghp_one, ghp_two";
     now_year := 2017;
     net := always bad_gateway;
     manual := NoFile;
     output_writable := true |}.

Definition requests_missing : environment :=
  {| requests_installed := false;
     GITHUB_TOKEN := Some "ghp_one";
     now_year := 2021;
     net := always public_response;
     manual := NoFile;
     output_writable := true |}.

(** One token, every answer [{"data": {"user": null}}] with status 200. *)
Definition user_not_found : environment :=
  {| requests_installed := true;
     GITHUB_TOKEN := Some "ghp_one";
     now_year := 2021;
     net := always null_user;
     manual := NoFile;
     output_writable := true |}.

(** One token and no network. *)
Definition network_down : environment :=
  {| requests_installed := true;
     GITHUB_TOKEN := Some "ghp_one";
     now_year := 2021;
     net := λ _ _, Unreachable;
     manual := NoFile;
     output_writable := true |}.

(** What the run of [by_hand_only] writes. *)
Definition by_hand_only_output : file_content :=
  [ ("2021", []); ("2020", [acme_by_hand]); ("2019", []);
    ("2018", []); ("2017", []); ("2016", []) ].

(** ** Vocabulary of the further properties *)

(** The distinct elements of a list, each at the place of its first
    occurrence: the order in which a [dict] built from the list keeps its
    keys. *)
Definition first_occurrences (l : list string) : list string :=
  foldl (λ acc k, if decide (k ∈ acc) then acc else acc ++ [k]) [] l.

(** Two hand-written records for one year, the first with a login of the
    fetched list. *)
Definition Initech_by_hand : org :=
  {| login := "initech"; name := "Initech";
     avatarUrl := "http://x/i.png"; url := None |}.


Definition by_hand_two_2020 : dataset :=
  {[ "2020" := [Initech_by_hand; Acme_by_hand] ]}.


(** The logins that get the has-public flag, one for each counted entry
    that is not private, in visiting order. *)
Definition public_logins (username : string) (es : list repo_contrib)
  : list string :=
  omap (λ rc, if is_public rc then counted username rc else None) es.

Definition map_field {A B} (f : A → B) (x : field A) : field B :=
  match x with
  | Absent => Absent
  | Null => Null
  | Present a => Present (f a)
  end.

(** A body with each of its three lists changed by [f]. *)
Definition map_lists (f : list repo_contrib → list repo_contrib) (data : body)
  : body :=
  {| errors := errors data;
     body_data :=
       map_field (λ d, DataObject (
       map_field (λ u, UserObject (
       map_field (λ c, CollectionObject (λ contrib_type,
                         map_field f (by_repository c contrib_type)))
                 (contributionsCollection u)))
                 (user d)))
                 (body_data data) |}.

(** A body without the entries the loop skips. *)
Definition without_skipped (username : string) (data : body) : body :=
  map_lists (filter (λ rc, is_Some (counted username rc))) data.

(** An entry that lacks the ["isPrivate"] key. *)
Definition repo_unflagged (ow : owner) : repo_contrib :=
  {| contrib_repository :=
       Present {| repo_owner := Present ow; isPrivate := None |} |}.

(** An entry without owner, and three lists that share the valid ones. *)
Definition repo_ownerless : repo_contrib :=
  {| contrib_repository :=
       Present {| repo_owner := Absent; isPrivate := Some false |} |}.

Definition mixed_data : body :=
  {| errors := false;
     body_data := found (λ contrib_type,
       match contrib_type with
       | commitContributionsByRepository =>
           [repo_ownerless; repo_of owner_nameless true]
       | pullRequestContributionsByRepository =>
           [repo_unflagged owner_Acme; repo_of owner_self false]
       | issueContributionsByRepository =>
           [repo_of owner_nameless false; RepoContrib Absent]
       end) |}.

Definition mixed_response : response :=
  {| status_code := 200; json := Some mixed_data |}.

Definition not_json : response := {| status_code := 200; json := None |}.


(** The requests of a full run, in the order they are sent: for each year,
    one per token. *)
Definition requests_of (tokens : list string) (years : list Z) : list request :=
  years ≫= λ year, (λ token, query token GITHUB_USERNAME year) <$> tokens.

(** The tokens and the years of a run. *)
Definition tokens_of (env : environment) : list string :=
  parse_tokens (default "" (GITHUB_TOKEN env)).

Definition years_of (env : environment) : list Z :=
  range_down (now_year env) 2015.

(** A network on which every fetch fails the quiet way: an answer with a
    status other than 200, or a body with an ["errors"] key. *)
Definition refuses (net : network) : Prop :=
  ∀ log req, ∃ r, net log req = Responded r
                  ∧ (status_code r ≠ 200
                     ∨ ∃ data, json r = Some data ∧ errors data = true).

(** The same environment with no token configured. *)
Definition without_tokens (env : environment) : environment :=
  {| requests_installed := requests_installed env;
     GITHUB_TOKEN := None;
     now_year := now_year env;
     net := net env;
     manual := manual env;
     output_writable := output_writable env |}.

(** The year labels of the manual file. *)
Definition manual_years (f : manual_file) : gset string :=
  match f with
  | Parsed m => dom m
  | _ => ∅
  end.

(** One token, answered for 2017 and not reachable afterwards. *)
Definition network_lost : environment :=
  {| requests_installed := true;
     GITHUB_TOKEN := Some "ghp_one";
     now_year := 2017;
     net := λ log _, match log with
                     | [] => Responded public_response
                     | _ => Unreachable
                     end;
     manual := NoFile;
     output_writable := true |}.


(** Items with strictly decreasing keys. *)
Definition key_gt (x y : string * list org) : Prop :=
  String.ltb y.1 x.1 = true.

(** A hand-written year outside the range of the run. *)
Definition by_hand_2010 : environment :=
  {| requests_installed := true;
     GITHUB_TOKEN := Some "ghp_one";
     now_year := 2017;
     net := always bad_gateway;
     manual := Parsed {[ "2010" := [Initech_by_hand; Acme_by_hand] ]};
     output_writable := true |}.

Definition by_hand_2010_output : file_content :=
  [ ("2017", []); ("2016", []); ("2010", [Initech_by_hand; Acme_by_hand]) ].


(** The characters of a string. *)
Definition chars (s : string) : list ascii := list_ascii_of_string s.

(** What is left of a string after one character that the three tests
    recognise at its head, if there is one. *)
Definition skip_head (sp1 : ascii → bool) (sp2 : ascii → ascii → bool)
    (sp3 : ascii → ascii → ascii → bool) (s : string) : option string :=
  match s with
  | String c r =>
      if sp1 c then Some r
      else match r with
           | String d r' =>
               if sp2 c d then Some r'
               else match r' with
                    | String e r'' => if sp3 c d e then Some r'' else None
                    | EmptyString => None
                    end
           | EmptyString => None
           end
  | EmptyString => None
  end.

(** A string that starts, or ends, with a white space character. *)
Definition space_at_head (s : string) : bool :=
  bool_decide (is_Some (skip_head is_space is_space2 is_space3 s)).

Definition space_at_end (s : string) : bool :=
  bool_decide
    (is_Some (skip_head is_space (λ c d, is_space2 d c)
                (λ c d e, is_space3 e d c) (rev_string s))).

(** A token as [parse_tokens] produces them: not empty, no white space at
    either end, no comma. *)
Definition clean_token (t : string) : Prop :=
  nonempty t = true
  ∧ space_at_head t = false ∧ space_at_end t = false
  ∧ ","%char ∉ chars t.


(** The strings of a list strictly decrease from each one to the next. *)
Fixpoint descending (l : list string) : bool :=
  match l with
  | a :: (b :: _) as rest => String.ltb b a && descending rest
  | _ => true
  end.

Definition string_gt (a b : string) : Prop := String.ltb b a = true.

(** * Properties *)

(** ** Dictionaries *)

Section dict_facts.
Context {V : Type}.
Implicit Types (a b d : dict V) (k : string) (v : V).

Lemma dict_get_set_eq k v d : dict_get k (dict_set k v d) = Some v.
Proof.
  induction d as [|[k' v'] d IH]; simpl.
  - by rewrite String.eqb_refl.
  - destruct (String.eqb k k') eqn:E; simpl; rewrite E; done.
Qed.

Lemma dict_get_set_ne k k' v d :
  k ≠ k' → dict_get k' (dict_set k v d) = dict_get k' d.
Proof.
  intros Hne. induction d as [|[k0 v0] d IH]; simpl.
  - destruct (String.eqb k' k) eqn:E; [|done].
    apply String.eqb_eq in E. congruence.
  - destruct (String.eqb k k0) eqn:E; simpl; [|by rewrite IH].
    apply String.eqb_eq in E. subst k0.
    destruct (String.eqb k' k) eqn:E'; [|done].
    apply String.eqb_eq in E'. congruence.
Qed.

Lemma dict_get_set k k' v d :
  dict_get k' (dict_set k v d) =
  if decide (k = k') then Some v else dict_get k' d.
Proof.
  case_decide as H.
  - subst. apply dict_get_set_eq.
  - by apply dict_get_set_ne.
Qed.

Lemma dict_get_None k d : dict_get k d = None ↔ k ∉ dict_keys d.
Proof.
  induction d as [|[k' v'] d IH]; simpl.
  - split; [intros _; apply not_elem_of_nil | done].
  - rewrite not_elem_of_cons. destruct (String.eqb k k') eqn:E.
    + apply String.eqb_eq in E. split; [done|]. intros [? _]. done.
    + apply String.eqb_neq in E. rewrite IH. split; [done|]. by intros [_ ?].
Qed.

Lemma dict_get_elem k v d : dict_get k d = Some v → (k, v) ∈ d.
Proof.
  induction d as [|[k' v'] d IH]; simpl; [done|].
  destruct (String.eqb k k') eqn:E.
  - apply String.eqb_eq in E. intros [= ->]. subst. apply list_elem_of_here.
  - intros H. apply list_elem_of_further. auto.
Qed.

Lemma dict_elem_get k v d :
  NoDup (dict_keys d) → (k, v) ∈ d → dict_get k d = Some v.
Proof.
  induction d as [|[k' v'] d IH]; simpl; [by intros _ ?%elem_of_nil|].
  intros [Hk Hd]%NoDup_cons [[= -> ->]|Hin]%elem_of_cons.
  - by rewrite String.eqb_refl.
  - destruct (String.eqb k k') eqn:E; [|by auto].
    apply String.eqb_eq in E. subst k'. destruct Hk.
    unfold dict_keys. apply (list_elem_of_fmap_2 fst) in Hin. done.
Qed.

Lemma dict_mem_true k d : dict_mem k d = true ↔ k ∈ dict_keys d.
Proof.
  unfold dict_mem. destruct (dict_get k d) eqn:E.
  - split; [intros _|done]. apply dict_get_elem in E.
    by apply (list_elem_of_fmap_2 fst) in E.
  - apply dict_get_None in E. naive_solver.
Qed.

Lemma dict_mem_false k d : dict_mem k d = false ↔ k ∉ dict_keys d.
Proof. rewrite <-dict_mem_true. by destruct (dict_mem k d). Qed.

(** Assigning the value a key already has changes nothing. *)
Lemma dict_set_id k v d : dict_get k d = Some v → dict_set k v d = d.
Proof.
  induction d as [|[k' v'] d IH]; simpl; [done|].
  destruct (String.eqb k k') eqn:E.
  - by intros [= ->].
  - intros H. by rewrite IH.
Qed.

(** A new key goes to the end. *)
Lemma dict_set_new k v d : k ∉ dict_keys d → dict_set k v d = d ++ [(k, v)].
Proof.
  induction d as [|[k' v'] d IH]; simpl; [done|].
  intros [Hne Hk]%not_elem_of_cons.
  apply String.eqb_neq in Hne. rewrite Hne. by rewrite IH.
Qed.

(** An assignment keeps the keys, or adds one at the end. *)
Lemma dict_keys_set k v d :
  dict_keys (dict_set k v d) =
  if dict_mem k d then dict_keys d else dict_keys d ++ [k].
Proof.
  induction d as [|[k' v'] d IH]; simpl; [done|].
  unfold dict_mem in *. simpl.
  destruct (String.eqb k k') eqn:E; simpl; [done|].
  rewrite IH. by destruct (dict_get k d).
Qed.

Lemma dict_set_NoDup k v d :
  NoDup (dict_keys d) → NoDup (dict_keys (dict_set k v d)).
Proof.
  intros Hd. rewrite dict_keys_set.
  destruct (dict_mem k d) eqn:E; [done|].
  apply dict_mem_false in E.
  apply NoDup_app. split_and!; [done| |apply NoDup_singleton].
  intros x Hx ->%list_elem_of_singleton. done.
Qed.

Lemma dict_set_elem k v d k' v' :
  (k', v') ∈ dict_set k v d → (k', v') = (k, v) ∨ (k', v') ∈ d.
Proof.
  induction d as [|[k0 v0] d IH]; simpl.
  - intros ->%list_elem_of_singleton. by left.
  - destruct (String.eqb k k0) eqn:E.
    + apply String.eqb_eq in E. subst k0.
      intros [->|H]%elem_of_cons; [by left|].
      right. by apply list_elem_of_further.
    + intros [->|H]%elem_of_cons; [right; apply list_elem_of_here|].
      destruct (IH H) as [?|?]; [by left|].
      right. by apply list_elem_of_further.
Qed.

Lemma dict_union_cons a k v b :
  dict_union a ((k, v) :: b) = dict_union (dict_set k v a) b.
Proof. done. Qed.

Lemma dict_union_NoDup a b :
  NoDup (dict_keys a) → NoDup (dict_keys (dict_union a b)).
Proof.
  revert a. induction b as [|[k v] b IH]; intros a Ha; [done|].
  rewrite dict_union_cons. apply IH. by apply dict_set_NoDup.
Qed.

(** [{**a, **b}[k]] is [b[k]] when [b] has the key, and [a[k]] if not. *)
Lemma dict_get_union a b k :
  NoDup (dict_keys b) →
  dict_get k (dict_union a b) =
  match dict_get k b with Some v => Some v | None => dict_get k a end.
Proof.
  revert a. induction b as [|[k' v'] b IH]; intros a Hb; [done|].
  apply NoDup_cons in Hb as [Hk' Hb]. simpl in Hk'.
  rewrite dict_union_cons, IH by done. simpl.
  destruct (String.eqb k k') eqn:E.
  - apply String.eqb_eq in E. subst k'.
    apply dict_get_None in Hk'. rewrite Hk'. apply dict_get_set_eq.
  - apply String.eqb_neq in E.
    destruct (dict_get k b); [done|]. by apply dict_get_set_ne.
Qed.

(** Updating with entries the dictionary already holds changes nothing. *)
Lemma dict_union_id a b :
  (∀ k v, (k, v) ∈ b → dict_get k a = Some v) → dict_union a b = a.
Proof.
  induction b as [|[k v] b IH]; intros H; [done|].
  rewrite dict_union_cons, dict_set_id.
  - apply IH. intros k' v' Hin. apply H. by apply list_elem_of_further.
  - apply H. apply list_elem_of_here.
Qed.

Lemma dict_union_elem a b k v :
  (k, v) ∈ dict_union a b → (k, v) ∈ a ∨ (k, v) ∈ b.
Proof.
  revert a. induction b as [|[k' v'] b IH]; intros a; [by left|].
  rewrite dict_union_cons. intros [H|H]%IH.
  - apply dict_set_elem in H as [->|H]; [right; apply list_elem_of_here|by left].
  - right. by apply list_elem_of_further.
Qed.
End dict_facts.

(** ** The merger *)

Lemma keyed_nil : keyed [].
Proof. split; [apply NoDup_nil_2|]. by intros k o ?%elem_of_nil. Qed.

Lemma keyed_set d o : keyed d → keyed (dict_set (login o) o d).
Proof.
  intros [Hk Hl]. split; [by apply dict_set_NoDup|].
  intros k o' [[= -> ->]|H]%dict_set_elem; [done|by apply Hl].
Qed.

Lemma by_login_snoc l o :
  by_login (l ++ [o]) = dict_set (login o) o (by_login l).
Proof. unfold by_login. by rewrite foldl_app. Qed.

Lemma keyed_by_login l : keyed (by_login l).
Proof.
  induction l as [|o l IH] using rev_ind; [apply keyed_nil|].
  rewrite by_login_snoc. by apply keyed_set.
Qed.

Lemma keyed_union a b : keyed a → keyed b → keyed (dict_union a b).
Proof.
  intros [Ha Hla] [Hb Hlb]. split; [by apply dict_union_NoDup|].
  intros k o [H|H]%dict_union_elem; eauto.
Qed.

(** The logins of the values of a keyed dictionary are its keys. *)
Lemma keyed_logins d : keyed d → login <$> dict_values d = dict_keys d.
Proof.
  intros [_ Hl]. unfold dict_values, dict_keys.
  induction d as [|[k o] d IH]; [done|]. simpl. f_equal.
  - apply Hl, list_elem_of_here.
  - apply IH. intros k' o' H. by apply Hl, list_elem_of_further.
Qed.

Lemma by_login_values_from acc d :
  keyed (acc ++ d) →
  foldl (λ d o, dict_set (login o) o d) acc (dict_values d) = acc ++ d.
Proof.
  revert acc. induction d as [|[k o] d IH]; intros acc Hk; simpl.
  - by rewrite app_nil_r.
  - assert (login o = k) as ->.
    { apply Hk. rewrite elem_of_app. right. apply list_elem_of_here. }
    rewrite dict_set_new.
    + rewrite IH; by rewrite <-(assoc_L (++)).
    + destruct Hk as [Hk _]. unfold dict_keys in *. rewrite fmap_app in Hk.
      apply NoDup_app in Hk as (_ & Hk & _). intros Hin.
      apply (Hk _ Hin). simpl. apply list_elem_of_here.
Qed.

(** Rebuilding a keyed dictionary from its values gives it back. *)
Lemma by_login_values d : keyed d → by_login (dict_values d) = d.
Proof. intros Hk. unfold by_login. by rewrite by_login_values_from. Qed.

Lemma merge_year_idem a b : merge_year (merge_year a b) b = merge_year a b.
Proof.
  unfold merge_year.
  pose proof (keyed_by_login a) as Ha. pose proof (keyed_by_login b) as Hb.
  rewrite by_login_values by (by apply keyed_union).
  f_equal. apply dict_union_id. intros k o Hin.
  rewrite dict_get_union by apply Hb.
  by rewrite (dict_elem_get k o) by (apply Hb || done).
Qed.

Lemma merge_year_NoDup a b : NoDup (login <$> merge_year a b).
Proof.
  unfold merge_year. rewrite keyed_logins.
  - apply dict_union_NoDup, keyed_by_login.
  - apply keyed_union; apply keyed_by_login.
Qed.

Lemma lookup_merge_contributions (auto manual : dataset) year :
  merge_contributions auto manual !! year =
  if decide (year ∈ dom auto ∪ dom manual)
  then Some (merge_year (default [] (auto !! year))
                        (default [] (manual !! year)))
  else None.
Proof.
  unfold merge_contributions. apply option_eq. intros l.
  rewrite lookup_set_to_map by (by intros ?? _ _ [= ->]).
  case_decide as Hy.
  - split; [intros (y & _ & [= -> <-]); done|].
    intros [= <-]. eauto.
  - split; [intros (y & Hin & [= -> <-]); done|done].
Qed.

Lemma dom_merge_contributions (auto manual : dataset) :
  dom (merge_contributions auto manual) = dom auto ∪ dom manual.
Proof.
  apply set_eq. intros y. rewrite elem_of_dom, lookup_merge_contributions.
  case_decide; [|by split; [intros []|]].
  split; [done|]. intros _. eauto.
Qed.

(** [by_login] keeps, for each login, the last record of the list. *)
Lemma dict_get_by_login L l : dict_get L (by_login l) = record_for L l.
Proof.
  unfold record_for. induction l as [|o l IH] using rev_ind; [done|].
  rewrite by_login_snoc, dict_get_set, filter_app.
  case_decide as Ho.
  - rewrite filter_cons_True, filter_nil by done. by rewrite last_snoc.
  - rewrite filter_cons_False, filter_nil by done. by rewrite app_nil_r.
Qed.

(** In a keyed dictionary a record is a value exactly when it is the value
    at its own login. *)
Lemma keyed_values_get d o :
  keyed d → o ∈ dict_values d ↔ dict_get (login o) d = Some o.
Proof.
  intros [Hk Hl]. unfold dict_values. split.
  - intros ([k o'] & -> & Hin)%list_elem_of_fmap. simpl.
    rewrite (Hl _ _ Hin). by apply dict_elem_get.
  - intros Hin%dict_get_elem. by apply (list_elem_of_fmap_2 snd) in Hin.
Qed.

(** C2.  Merging is idempotent in its second argument: merging the manual
    dataset [B] once more into [merge_contributions A B] gives
    [merge_contributions A B] again, with the same records in the same
    order in every year's list. *)
Theorem merge_contributions_idempotent (A B : dataset) :
  merge_contributions (merge_contributions A B) B = merge_contributions A B.
Proof.
  apply map_eq. intros year.
  rewrite (lookup_merge_contributions (merge_contributions A B)).
  rewrite dom_merge_contributions, lookup_merge_contributions.
  case_decide as Hy.
  - rewrite decide_True.
    + simpl. by rewrite merge_year_idem.
    + apply elem_of_union in Hy as [Hy|Hy]; [done|].
      apply elem_of_union. by right.
  - rewrite decide_False; [done|].
    intros Hy'. apply Hy, elem_of_union. by left.
Qed.

(** C1, as stated, fails: the keys of the merge are the identifiers as
    written, so a fetched ["Acme"] and a hand-written ["acme"] both stay in
    the year's list, two records whose identifiers differ only in case. *)
Lemma merged_year_holds_case_variants :
  merge_contributions fetched_2020 by_hand_lower_2020 !! "2020"
    = Some [Acme_fetched; acme_by_hand]
  ∧ ¬ NoDup (lower <$> (login <$> [Acme_fetched; acme_by_hand])).
Proof.
  split; [vm_compute; reflexivity|].
  intros Hn. apply NoDup_cons in Hn as [Hn _]. apply Hn.
  vm_compute. apply list_elem_of_here.
Qed.

(** C1, amended.  In the dataset produced by merging automatic and manual
    data, the identifiers of the records of a year's list are pairwise
    distinct as written (compared exactly, case included). *)
Theorem merged_logins_distinct (auto manual : dataset) year l :
  merge_contributions auto manual !! year = Some l →
  NoDup (login <$> l).
Proof.
  rewrite lookup_merge_contributions. case_decide; [|done].
  intros [= <-]. apply merge_year_NoDup.
Qed.

Lemma merged_logins_distinct_witness :
  NoDup (login <$> [Acme_fetched; acme_by_hand]).
Proof.
  apply (merged_logins_distinct fetched_2020 by_hand_lower_2020 "2020").
  vm_compute; reflexivity.
Defined.

(** C3.  A manual record replaces the automatic one as a whole: when the
    manual list of a year holds the record [m] for an identifier, the
    merged list of that year holds [m] itself, and every merged record with
    that identifier is [m], in every field, whatever the automatic list
    holds for it. *)
Theorem manual_record_replaces_automatic (auto manual : dataset)
    year manual_list identifier m :
  manual !! year = Some manual_list →
  record_for identifier manual_list = Some m →
  ∃ l, merge_contributions auto manual !! year = Some l
       ∧ m ∈ l
       ∧ ∀ o, o ∈ l → login o = identifier → o = m.
Proof.
  intros Hy Hm. rewrite lookup_merge_contributions.
  rewrite decide_True by (apply elem_of_union_r, elem_of_dom; eauto).
  rewrite Hy. simpl. eexists. split; [done|]. unfold merge_year.
  set (a := by_login (default [] (auto !! year))).
  assert (keyed (dict_union a (by_login manual_list))) as Hk.
  { apply keyed_union; apply keyed_by_login. }
  assert (dict_get identifier (dict_union a (by_login manual_list)) = Some m)
    as Hget.
  { rewrite dict_get_union by apply keyed_by_login.
    by rewrite dict_get_by_login, Hm. }
  assert (login m = identifier) as Hlm.
  { apply dict_get_elem in Hget. by apply Hk in Hget. }
  split.
  - apply keyed_values_get; [done|]. by rewrite Hlm.
  - intros o Ho <-. apply keyed_values_get in Ho; [|done]. congruence.
Qed.

Lemma manual_record_replaces_automatic_witness :
  ∃ l, merge_contributions fetched_2020 by_hand_2020 !! "2020" = Some l
       ∧ Acme_by_hand ∈ l
       ∧ ∀ o, o ∈ l → login o = "Acme" → o = Acme_by_hand.
Proof.
  apply (manual_record_replaces_automatic fetched_2020 by_hand_2020
           "2020" [Acme_by_hand] "Acme" Acme_by_hand).
  - vm_compute; reflexivity.
  - vm_compute; reflexivity.
Defined.

(** ** The fetcher *)

Lemma counted_valid username rc L :
  counted username rc = Some L →
  valid_owner (owner_of rc) = Some L
  ∧ String.eqb (lower L) (lower username) = false.
Proof.
  unfold counted. destruct (valid_owner (owner_of rc)) as [L'|]; [|done].
  destruct (String.eqb (lower L') (lower username)) eqn:E; [done|].
  by intros [= <-].
Qed.

Lemma valid_owner_fields ow L :
  valid_owner ow = Some L →
  owner_login ow = Some L ∧ nonempty L = true
  ∧ ∃ avatar, owner_avatarUrl ow = Some avatar ∧ nonempty avatar = true.
Proof.
  unfold valid_owner.
  destruct (owner_login ow) as [l|]; [|done].
  destruct (owner_avatarUrl ow) as [a|]; [|done].
  destruct (nonempty l) eqn:El; [|done].
  destruct (nonempty a) eqn:Ea; [|done].
  intros [= <-]. eauto.
Qed.

Lemma counted_login username rc L :
  counted username rc = Some L → login (record_of rc) = L.
Proof.
  intros [Hv _]%counted_valid. apply valid_owner_fields in Hv as (Hl & _).
  unfold record_of. simpl. by rewrite Hl.
Qed.

Lemma visit_counted username st rc :
  step username st rc =
  match counted username rc with
  | None => st
  | Some L =>
      (if dict_mem L st.1 then st.1 else dict_set L (record_of rc) st.1,
       if is_public rc then {[ L ]} ∪ st.2 else st.2)
  end.
Proof. done. Qed.

(** One turn of the loop: it raises on a [null] repository or owner, and
    otherwise does what [step] says, in terms of [counted], [record_of]
    and [is_public]. *)
Lemma visit_step username st rc :
  visit username st rc =
  if null_object rc then Raise AttributeError else Ok (step username st rc).
Proof.
  destruct st as [orgs pub]. destruct rc as [repo].
  unfold visit, step, null_object, counted, valid_owner, record_of, is_public,
    owner_of, repository_of.
  destruct repo as [| |[ow private]]; simpl; [done..|].
  destruct ow as [| |ow]; simpl; [done..|].
  destruct (owner_login ow) as [l|]; [|done].
  destruct (owner_avatarUrl ow) as [a|]; [|done]. simpl.
  destruct (nonempty l); [|done]. destruct (nonempty a); [|done]. simpl.
  destruct (String.eqb (lower l) (lower username)); [done|].
  by destruct (dict_mem l orgs), (default false private).
Qed.

Lemma for_each_visit username st l :
  for_each (visit username) st l =
  if existsb null_object l then Raise AttributeError
  else Ok (foldl (step username) st l).
Proof.
  revert st. induction l as [|rc l IH]; intros st; [done|]. simpl.
  rewrite visit_step. destruct (null_object rc); [done|]. apply IH.
Qed.

(** The nested loops either raise, on a body with a [null] in the way, or
    visit the entries of the three lists in order. *)
Lemma scan_cases username data :
  (has_null data = false
   ∧ scan username data = Ok (scanned username (entries data)))
  ∨ (has_null data = true
     ∧ (scan username data = Raise AttributeError
        ∨ scan username data = Raise TypeError)).
Proof.
  destruct data as [e d]. unfold scan, has_null, scanned, entries, collection,
    collection_of. simpl.
  destruct d as [| |[u]]; simpl; [by left|by right; split; [|left]|].
  destruct u as [| |[c]]; simpl; [by left|by right; split; [|left]|].
  destruct c as [| |[lists]]; simpl; [by left|by right; split; [|left]|].
  destruct (lists commitContributionsByRepository) as [| |l1],
    (lists pullRequestContributionsByRepository) as [| |l2],
    (lists issueContributionsByRepository) as [| |l3]; simpl;
    repeat first
      [ rewrite for_each_visit | rewrite existsb_app | rewrite foldl_app
      | rewrite app_nil_r
      | match goal with
        | |- context [existsb null_object ?l] =>
            destruct (existsb null_object l); simpl
        end ];
    rewrite ?orb_true_r;
    first [ by left | by right; split; [|left] | by right; split; [|right] ].
Qed.

Lemma scan_Ok username data st :
  scan username data = Ok st ↔
  has_null data = false ∧ st = scanned username (entries data).
Proof.
  destruct (scan_cases username data) as [[Hn ->]|[Hn [-> | ->]]];
    rewrite Hn; (split; [|by intros [? ->]]); [|done..].
  by intros [= <-].
Qed.

Lemma scanned_snoc username es rc :
  scanned username (es ++ [rc]) = step username (scanned username es) rc.
Proof. unfold scanned. by rewrite foldl_app. Qed.

Lemma first_entry_snoc username L es rc :
  first_entry username L (es ++ [rc]) =
  match first_entry username L es with
  | Some x => Some x
  | None => if decide (counted username rc = Some L) then Some rc else None
  end.
Proof.
  unfold first_entry. rewrite filter_app, head_app.
  destruct (head (filter _ es)); [done|].
  case_decide.
  - by rewrite filter_cons_True.
  - by rewrite filter_cons_False.
Qed.

Lemma scanned_keyed username es : keyed (scanned username es).1.
Proof.
  induction es as [|rc es IH] using rev_ind; [apply keyed_nil|].
  rewrite scanned_snoc, visit_counted.
  destruct (counted username rc) as [L|] eqn:Hc; [|done]. simpl.
  destruct (dict_mem L _); [done|].
  rewrite <-(counted_login username rc L) at 1 by done. by apply keyed_set.
Qed.

(** [orgs] holds, for each login, the record of the first entry counted
    under it. *)
Lemma scanned_orgs username es L :
  dict_get L (scanned username es).1 = record_of <$> first_entry username L es.
Proof.
  induction es as [|rc es IH] using rev_ind; [done|].
  rewrite scanned_snoc, visit_counted, first_entry_snoc.
  destruct (counted username rc) as [L0|] eqn:Hc; simpl.
  - unfold dict_mem.
    destruct (dict_get L0 (scanned username es).1) as [o0|] eqn:Hget.
    + rewrite IH. destruct (first_entry username L es); [done|].
      case_decide as HL; [|done]. simplify_eq.
      rewrite IH in Hget. done.
    + rewrite dict_get_set. case_decide as HL.
      * subst L0. rewrite IH in Hget.
        destruct (first_entry username L es); [done|].
        by rewrite decide_True.
      * rewrite IH. destruct (first_entry username L es); [done|].
        rewrite decide_False; [done|congruence].
  - rewrite IH. by destruct (first_entry username L es).
Qed.

(** [orgs_with_public] holds the logins of the counted entries that are
    not private, whatever list they come from. *)
Lemma scanned_public username es L :
  L ∈ (scanned username es).2 ↔
  ∃ rc, rc ∈ es ∧ counted username rc = Some L ∧ is_public rc = true.
Proof.
  induction es as [|rc es IH] using rev_ind.
  - split; [by intros ?%not_elem_of_empty|by intros (? & ?%elem_of_nil & _)].
  - rewrite scanned_snoc, visit_counted.
    assert ((∃ rc', rc' ∈ es ++ [rc] ∧ counted username rc' = Some L
                    ∧ is_public rc' = true)
            ↔ (L ∈ (scanned username es).2
               ∨ (counted username rc = Some L ∧ is_public rc = true))) as ->.
    { rewrite IH. split.
      - intros (rc' & [Hin| ->%list_elem_of_singleton]%elem_of_app & Hc & Hp);
          eauto.
      - intros [(rc' & Hin & Hc & Hp)|[Hc Hp]].
        + exists rc'. rewrite elem_of_app. eauto.
        + exists rc. rewrite elem_of_app, list_elem_of_singleton. eauto. }
    destruct (counted username rc) as [L0|] eqn:Hc; simpl.
    + destruct (is_public rc).
      * rewrite elem_of_union, elem_of_singleton. split.
        -- intros [->|?]; eauto.
        -- intros [?|[[= ->] _]]; eauto.
      * split; [eauto|]. by intros [?|[_ ?]].
    + split; [eauto|]. by intros [?|[? _]].
Qed.

(** The returned list: the records of the first counted entries, for the
    logins that have a counted entry that is not private. *)
Lemma elem_of_with_public username es o :
  o ∈ with_public (scanned username es) ↔
  (∃ rc, first_entry username (login o) es = Some rc ∧ o = record_of rc)
  ∧ login o ∈ (scanned username es).2.
Proof.
  unfold with_public. rewrite list_elem_of_filter.
  rewrite keyed_values_get by apply scanned_keyed.
  rewrite scanned_orgs, fmap_Some. split.
  - intros [Hpub (rc & Hfirst & Ho)]. eauto.
  - intros [(rc & Hfirst & Ho) Hpub]. eauto.
Qed.

Lemma with_public_NoDup username es :
  NoDup (login <$> with_public (scanned username es)).
Proof.
  unfold with_public.
  eapply sublist_NoDup; [|apply fmap_sublist, sublist_filter].
  rewrite keyed_logins by apply scanned_keyed. apply scanned_keyed.
Qed.

Lemma first_entry_Some username L es rc :
  first_entry username L es = Some rc ↔
  ∃ pre post, es = pre ++ rc :: post
              ∧ counted username rc = Some L
              ∧ ∀ rc', rc' ∈ pre → counted username rc' ≠ Some L.
Proof.
  unfold first_entry. induction es as [|x es IH].
  - split; [done|]. intros (pre & post & H & _). by destruct pre.
  - destruct (decide (counted username x = Some L)) as [Hx|Hx].
    + rewrite filter_cons_True by done. simpl. split.
      * intros [= ->]. exists [], es. split_and!; [done..|].
        by intros ? ?%elem_of_nil.
      * intros (pre & post & Heq & Hc & Hpre). destruct pre as [|y pre].
        -- by simplify_eq/=.
        -- simplify_eq/=. destruct (Hpre y); [apply list_elem_of_here|done].
    + rewrite filter_cons_False by done. rewrite IH. split.
      * intros (pre & post & -> & Hc & Hpre). exists (x :: pre), post.
        split_and!; [done..|].
        intros rc' [->|?]%elem_of_cons; eauto.
      * intros (pre & post & Heq & Hc & Hpre). destruct pre as [|y pre].
        -- simplify_eq/=.
        -- simplify_eq/=. exists pre, post. split_and!; [done..|].
           intros rc' Hin. apply Hpre. by apply list_elem_of_further.
Qed.

Lemma first_entry_exists username L es rc :
  rc ∈ es → counted username rc = Some L →
  is_Some (first_entry username L es).
Proof.
  intros Hin Hc. unfold first_entry.
  destruct (filter _ es) as [|x xs] eqn:E; [|by eexists].
  by destruct (filter_nil_not_elem_of _ _ rc E).
Qed.

Lemma record_of_no_name rc :
  no_name (owner_of rc) → name (record_of rc) = login (record_of rc).
Proof. unfold record_of. simpl. by intros [-> | ->]. Qed.

(** A call sends its one request and hands the response to
    [read_response]. *)
Lemma fetch_responded net token username year w r :
  net (sent w) (query token username year) = Responded r →
  get_contributions_for_year net token username year w =
  (read_response username r,
   World (sent w ++ [query token username year]) (output_file w)).
Proof.
  intros Hr. unfold get_contributions_for_year, bind, post. rewrite Hr.
  by destruct (read_response username r).
Qed.

Lemma fetch_returns net token username year w l w' :
  get_contributions_for_year net token username year w = (Ok l, w') →
  ∃ r, net (sent w) (query token username year) = Responded r
       ∧ read_response username r = Ok l.
Proof.
  destruct (net (sent w) (query token username year)) as [r|] eqn:Hr.
  - rewrite (fetch_responded _ _ _ _ _ r) by done. intros [= H _]. eauto.
  - unfold get_contributions_for_year, bind, post. by rewrite Hr.
Qed.

Lemma read_response_Ok username r l :
  read_response username r = Ok l →
  l = [] ∨ ∃ data, json r = Some data
                   ∧ l = with_public (scanned username (entries data)).
Proof.
  unfold read_response. destruct (negb _); [intros [= <-]; by left|].
  destruct (json r) as [data|]; [|done].
  destruct (errors data); [intros [= <-]; by left|].
  destruct (scan username data) as [st|e] eqn:Hscan; [|done].
  apply scan_Ok in Hscan as [_ ->]. intros [= <-]. right. by exists data.
Qed.

(** What is read from a body with status 200 and no ["errors"] key, when
    something is returned. *)
Lemma read_response_scanned username r data l :
  status_code r = 200 → json r = Some data → errors data = false →
  read_response username r = Ok l →
  has_null data = false
  ∧ scan username data = Ok (scanned username (entries data))
  ∧ l = with_public (scanned username (entries data)).
Proof.
  intros Hs Hj He. unfold read_response. rewrite Hs, Hj, He. simpl.
  destruct (scan username data) as [st|e] eqn:Hscan; [|done].
  apply scan_Ok in Hscan as [Hn ->]. by intros [= <-].
Qed.

Lemma read_response_elem username r l o :
  read_response username r = Ok l → o ∈ l →
  ∃ data, json r = Some data
          ∧ scan username data = Ok (scanned username (entries data))
          ∧ l = with_public (scanned username (entries data)).
Proof.
  unfold read_response.
  destruct (negb _); [by intros [= <-] ?%elem_of_nil|].
  destruct (json r) as [data|]; [|done].
  destruct (errors data); [by intros [= <-] ?%elem_of_nil|].
  destruct (scan username data) as [st|e] eqn:Hscan; [|done].
  pose proof Hscan as [_ ->]%scan_Ok. intros [= <-] _. by exists data.
Qed.

Lemma read_response_success username r data :
  status_code r = 200 → json r = Some data → errors data = false →
  has_null data = false →
  read_response username r = Ok (with_public (scanned username (entries data))).
Proof.
  intros Hs Hj He Hn. unfold read_response. rewrite Hs, Hj, He. simpl.
  by rewrite (proj2 (scan_Ok username data _) (conj Hn eq_refl)).
Qed.

(** C6.  When the response has a status other than 200 (every non-success
    status is one), or its body has a top-level ["errors"] key, the call
    returns the empty list: it raises nothing, and the one request it sent
    is the only one, nothing is tried again. *)
Theorem failed_fetch_returns_empty net token username year w r :
  net (sent w) (query token username year) = Responded r →
  status_code r ≠ 200 ∨ (∃ data, json r = Some data ∧ errors data = true) →
  get_contributions_for_year net token username year w =
  (Ok [], World (sent w ++ [query token username year]) (output_file w)).
Proof.
  intros Hr Hfail. rewrite (fetch_responded _ _ _ _ _ r) by done.
  f_equal. unfold read_response.
  destruct (status_code r =? 200) eqn:Hs; simpl; [|done].
  destruct Hfail as [Hne|(data & -> & ->)]; [|done].
  apply Z.eqb_eq in Hs. done.
Qed.

Lemma failed_fetch_returns_empty_witness :
  get_contributions_for_year (always bad_gateway) "token" GITHUB_USERNAME 2020
    fresh_world
  = (Ok [], World [query "token" GITHUB_USERNAME 2020] None)
  ∧ get_contributions_for_year (always partial_response) "token"
      GITHUB_USERNAME 2020 fresh_world
    = (Ok [], World [query "token" GITHUB_USERNAME 2020] None).
Proof.
  split.
  - apply (failed_fetch_returns_empty (always bad_gateway) "token"
             GITHUB_USERNAME 2020 fresh_world bad_gateway).
    + reflexivity.
    + left. vm_compute. discriminate.
  - apply (failed_fetch_returns_empty (always partial_response) "token"
             GITHUB_USERNAME 2020 fresh_world partial_response).
    + reflexivity.
    + right. eexists. split; reflexivity.
Defined.

(** C7.  No record of the returned list has an identifier equal to the
    subject username once both are lower-cased. *)
Theorem subject_user_never_returned net token username year w l w' o :
  get_contributions_for_year net token username year w = (Ok l, w') →
  o ∈ l →
  lower (login o) ≠ lower username.
Proof.
  intros (r & _ & Hr)%fetch_returns Ho.
  apply read_response_Ok in Hr as [->|(data & _ & ->)].
  { by apply elem_of_nil in Ho. }
  apply elem_of_with_public in Ho as [(rc & Hfirst & _) _].
  apply first_entry_Some in Hfirst as (_ & _ & _ & Hc & _).
  apply counted_valid in Hc as [_ Hne]. by apply String.eqb_neq in Hne.
Qed.

Lemma subject_user_never_returned_witness :
  lower "Acme" ≠ lower GITHUB_USERNAME.
Proof.
  apply (subject_user_never_returned (always public_response) "token"
           GITHUB_USERNAME 2020 fresh_world
           [record_of (repo_of owner_Acme true);
            record_of (repo_of owner_nameless false)]
           (World [query "token" GITHUB_USERNAME 2020] None)
           (record_of (repo_of owner_Acme true))).
  - vm_compute. reflexivity.
  - apply list_elem_of_here.
Defined.

(** C4, as stated, fails on two kinds of response.  In [partial_response]
    the organization Acme has a repository entry that is not private, with
    valid owner fields, and the body also has an ["errors"] key: the call
    returns the empty list.  In [self_response] the owner entry carries
    the subject's login: it has valid fields and a repository that is not
    private, and it is left out. *)
Lemma public_entry_absent :
  (repo_of owner_Acme false
     ∈ entries (Body true (found (commits [repo_of owner_Acme false])))
   ∧ valid_owner (owner_of (repo_of owner_Acme false)) = Some "Acme"
   ∧ is_public (repo_of owner_Acme false) = true
   ∧ get_contributions_for_year (always partial_response) "token"
       GITHUB_USERNAME 2020 fresh_world
     = (Ok [], World [query "token" GITHUB_USERNAME 2020] None))
  ∧ (repo_of owner_self false
       ∈ entries (Body false (found (commits [repo_of owner_self false])))
     ∧ valid_owner (owner_of (repo_of owner_self false)) = Some "HaythemSellami"
     ∧ is_public (repo_of owner_self false) = true
     ∧ get_contributions_for_year (always self_response) "token"
         GITHUB_USERNAME 2020 fresh_world
       = (Ok [], World [query "token" GITHUB_USERNAME 2020] None)).
Proof.
  split; (split_and!; [apply list_elem_of_here|reflexivity|reflexivity|]);
    vm_compute; reflexivity.
Qed.

Lemma fetch_success net token username year w r data :
  net (sent w) (query token username year) = Responded r →
  status_code r = 200 → json r = Some data → errors data = false →
  has_null data = false →
  get_contributions_for_year net token username year w
  = (Ok (with_public (scanned username (entries data))),
     World (sent w ++ [query token username year]) (output_file w)).
Proof.
  intros Hr Hs Hj He Hn. rewrite (fetch_responded _ _ _ _ _ r) by done.
  by rewrite (read_response_success _ _ data).
Qed.

Lemma fetch_scanned net token username year w r data l w' :
  net (sent w) (query token username year) = Responded r →
  status_code r = 200 → json r = Some data → errors data = false →
  get_contributions_for_year net token username year w = (Ok l, w') →
  has_null data = false
  ∧ scan username data = Ok (scanned username (entries data))
  ∧ l = with_public (scanned username (entries data)).
Proof.
  intros Hr Hs Hj He. rewrite (fetch_responded _ _ _ _ _ r) by done.
  intros [= Hread _]. by apply (read_response_scanned _ r).
Qed.

Lemma with_public_present username es rc L :
  rc ∈ es → counted username rc = Some L → is_public rc = true →
  L ∈ login <$> with_public (scanned username es).
Proof.
  intros Hin Hc Hp.
  destruct (first_entry_exists username L _ rc Hin Hc) as [rc0 Hfirst].
  assert (login (record_of rc0) = L) as Hlogin.
  { apply first_entry_Some in Hfirst as (_ & _ & _ & Hc0 & _).
    by apply (counted_login username). }
  apply list_elem_of_fmap. exists (record_of rc0). split; [done|].
  apply elem_of_with_public. rewrite Hlogin. split; [eauto|].
  apply scanned_public. eauto.
Qed.

(** C4, amended.  Whatever the response, when the call returns a list, an
    organization all of whose repository entries, in the three lists, are
    flagged private is absent from it.  For a response with status 200 and
    no ["errors"] key the call returns a list whenever the body has no
    [null] where an object or a list is read (on such a [null] it raises),
    and in the list it returns an organization with an entry that is not
    private and has valid owner fields (a non-empty login and avatar URL)
    is present, provided its login is not the subject username up to
    case. *)
Theorem public_visibility_filter net token username year w r :
  net (sent w) (query token username year) = Responded r →
  (∀ l w', get_contributions_for_year net token username year w = (Ok l, w') →
     ∀ L, (∀ data rc, json r = Some data → rc ∈ entries data →
                      owner_login (owner_of rc) = Some L →
                      is_public rc = false) →
          L ∉ login <$> l)
  ∧ (∀ data, status_code r = 200 → json r = Some data → errors data = false →
       (has_null data = false →
        ∃ l w', get_contributions_for_year net token username year w
                = (Ok l, w'))
       ∧ (∀ l w', get_contributions_for_year net token username year w
                  = (Ok l, w') →
            ∀ rc L, rc ∈ entries data →
                    valid_owner (owner_of rc) = Some L →
                    lower L ≠ lower username →
                    is_public rc = true →
                    L ∈ login <$> l)).
Proof.
  intros Hr. split.
  - intros l w'. rewrite (fetch_responded _ _ _ _ _ r) by done.
    intros [= Hread _] L Hprivate (o & -> & Ho)%list_elem_of_fmap.
    apply read_response_Ok in Hread as [->|(data & Hj & ->)].
    { by apply elem_of_nil in Ho. }
    apply elem_of_with_public in Ho as [_ Hpub].
    apply scanned_public in Hpub as (rc & Hin & Hc & Hp).
    apply counted_valid in Hc as [Hv _].
    apply valid_owner_fields in Hv as (Hl & _).
    rewrite (Hprivate data rc Hj Hin Hl) in Hp. done.
  - intros data Hs Hj He. split.
    + intros Hn. do 2 eexists. by apply (fetch_success _ _ _ _ _ r data).
    + intros l w' Hl rc L Hin Hv Hne Hp.
      apply (fetch_scanned _ _ _ _ _ r data) in Hl as (_ & _ & ->); [|done..].
      apply (with_public_present username _ rc); [done| |done].
      unfold counted. rewrite Hv.
      apply String.eqb_neq in Hne. by rewrite Hne.
Qed.

Lemma public_visibility_filter_witness :
  ∃ l w', get_contributions_for_year (always public_response) "token"
            GITHUB_USERNAME 2020 fresh_world = (Ok l, w')
          ∧ "Acme" ∈ login <$> l.
Proof.
  destruct (public_visibility_filter (always public_response) "token"
              GITHUB_USERNAME 2020 fresh_world public_response)
    as [_ Hpresent]; [reflexivity|].
  destruct (Hpresent public_data) as [Hreturns Hin]; [reflexivity..|].
  destruct Hreturns as (l & w' & Hl); [reflexivity|].
  exists l, w'. split; [exact Hl|].
  apply (Hin l w' Hl (repo_of owner_Acme false) "Acme").
  - apply list_elem_of_further, list_elem_of_further, list_elem_of_here.
  - reflexivity.
  - vm_compute. discriminate.
  - reflexivity.
Defined.

(** C9.  In the list a call returns, each login appears once, and each
    record is the one built (name, avatar URL, URL) from the first entry
    counted under its login, in the order commits, pull requests, issues.
    The has-public flag of a login is set exactly when some counted entry
    with that login, in any of the three lists, is not private; every
    returned record has it set. *)
Theorem returned_records_from_first_entry net token username year w l w' :
  get_contributions_for_year net token username year w = (Ok l, w') →
  NoDup (login <$> l)
  ∧ (∀ o, o ∈ l →
       ∃ r data pre rc post,
         net (sent w) (query token username year) = Responded r
         ∧ json r = Some data
         ∧ collection data commitContributionsByRepository
           ++ collection data pullRequestContributionsByRepository
           ++ collection data issueContributionsByRepository
           = pre ++ rc :: post
         ∧ counted username rc = Some (login o)
         ∧ (∀ rc', rc' ∈ pre → counted username rc' ≠ Some (login o))
         ∧ o = record_of rc
         ∧ ∃ st, scan username data = Ok st ∧ login o ∈ st.2)
  ∧ (∀ data st L,
       scan username data = Ok st →
       L ∈ st.2 ↔
       ∃ contrib_type rc, rc ∈ collection data contrib_type
                          ∧ counted username rc = Some L
                          ∧ is_public rc = true).
Proof.
  intros (r & Hnet & Hr)%fetch_returns. split_and!.
  - apply read_response_Ok in Hr as [->|(data & _ & ->)].
    + apply NoDup_nil_2.
    + apply with_public_NoDup.
  - intros o Ho.
    destruct (read_response_elem _ _ _ _ Hr Ho) as (data & Hj & Hscan & ->).
    apply elem_of_with_public in Ho as [(rc & Hfirst & ->) Hpub].
    apply first_entry_Some in Hfirst as (pre & post & Hes & Hc & Hpre).
    exists r, data, pre, rc, post. split_and!; [done..|]. eauto.
  - intros data st L [_ ->]%scan_Ok. rewrite scanned_public. unfold entries.
    split.
    + intros (rc & Hin & Hc & Hp).
      rewrite !elem_of_app in Hin. destruct Hin as [?|[?|?]]; eauto.
    + intros (ct & rc & Hin & Hc & Hp). exists rc. split; [|done].
      rewrite !elem_of_app. destruct ct; auto.
Qed.

Lemma returned_records_from_first_entry_witness :
  NoDup (login <$> [record_of (repo_of owner_Acme true);
                    record_of (repo_of owner_nameless false)]).
Proof.
  apply (returned_records_from_first_entry (always public_response) "token"
           GITHUB_USERNAME 2020 fresh_world
           [record_of (repo_of owner_Acme true);
            record_of (repo_of owner_nameless false)]
           (World [query "token" GITHUB_USERNAME 2020] None)).
  vm_compute. reflexivity.
Defined.

(** C10, as stated, fails for an accepted entry that is not the first of
    its login: in [named_then_unnamed] the second entry of Acme is
    accepted and has no display name, and the record of Acme keeps the name
    of the first entry, not the login. *)
Lemma later_unnamed_entry_keeps_name :
  counted GITHUB_USERNAME (repo_of owner_Acme_unnamed false) = Some "Acme"
  ∧ no_name (owner_of (repo_of owner_Acme_unnamed false))
  ∧ get_contributions_for_year (always named_then_unnamed) "token"
      GITHUB_USERNAME 2020 fresh_world
    = (Ok [Acme_fetched], World [query "token" GITHUB_USERNAME 2020] None)
  ∧ name Acme_fetched ≠ login Acme_fetched.
Proof.
  split_and!; [reflexivity|by left| |discriminate].
  vm_compute. reflexivity.
Qed.

(** C10, amended.  For a response with status 200 and no ["errors"] key,
    the call returns a list whenever the body has no [null] where an
    object or a list is read, and whenever it returns: an entry counted
    under a login always leaves a record for that login in [orgs], whether
    or not its owner has a display name, it is not skipped; when the entry
    that creates the record (the first one counted under the login) has a
    name that is absent, [null] or empty, the record's name is its login;
    and that record is returned as soon as the login has the has-public
    flag.  A later entry of the same login does not change the record. *)
Theorem nameless_owner_named_by_login net token username year w r data :
  net (sent w) (query token username year) = Responded r →
  status_code r = 200 → json r = Some data → errors data = false →
  (has_null data = false →
   ∃ l w', get_contributions_for_year net token username year w = (Ok l, w'))
  ∧ (∀ l w', get_contributions_for_year net token username year w = (Ok l, w') →
     ∃ st, scan username data = Ok st
       ∧ (∀ rc L, rc ∈ entries data → counted username rc = Some L →
                  is_Some (dict_get L st.1))
       ∧ (∀ rc L, first_entry username L (entries data) = Some rc →
                  no_name (owner_of rc) →
                  ∃ o, dict_get L st.1 = Some o
                       ∧ login o = L ∧ name o = L
                       ∧ avatarUrl o = default "" (owner_avatarUrl (owner_of rc))
                       ∧ url o = owner_url (owner_of rc)
                       ∧ (L ∈ st.2 → o ∈ l))).
Proof.
  intros Hr Hs Hj He. split.
  { intros Hn. do 2 eexists. by apply (fetch_success _ _ _ _ _ r data). }
  intros l w' Hl.
  apply (fetch_scanned _ _ _ _ _ r data) in Hl as (_ & Hscan & ->); [|done..].
  eexists. split; [done|]. split.
  - intros rc L Hin Hc. rewrite scanned_orgs.
    destruct (first_entry_exists username L _ rc Hin Hc) as [rc0 ->].
    by eexists.
  - intros rc L Hfirst Hname. exists (record_of rc).
    assert (login (record_of rc) = L) as Hlogin.
    { apply first_entry_Some in Hfirst as (_ & _ & _ & Hc & _).
      by apply (counted_login username). }
    split_and!; [|done| |done|done|].
    + by rewrite scanned_orgs, Hfirst.
    + by rewrite record_of_no_name.
    + intros Hpub. apply elem_of_with_public. rewrite Hlogin. eauto.
Qed.

Lemma nameless_owner_named_by_login_witness :
  ∃ l w', get_contributions_for_year (always public_response) "token"
            GITHUB_USERNAME 2020 fresh_world = (Ok l, w')
          ∧ ∃ o, o ∈ l ∧ login o = "initech" ∧ name o = "initech".
Proof.
  destruct (nameless_owner_named_by_login (always public_response) "token"
              GITHUB_USERNAME 2020 fresh_world public_response public_data)
    as [Hreturns Hname]; [reflexivity..|].
  destruct Hreturns as (l & w' & Hl); [reflexivity|].
  exists l, w'. split; [exact Hl|].
  destruct (Hname l w' Hl) as (st & Hscan & _ & Hfirst).
  destruct (Hfirst (repo_of owner_nameless false) "initech")
    as (o & _ & Hlogin & Hn & _ & _ & Hin).
  - vm_compute. reflexivity.
  - left. reflexivity.
  - exists o. split_and!; [|exact Hlogin|exact Hn].
    apply Hin. apply scan_Ok in Hscan as [_ ->]. apply scanned_public.
    exists (repo_of owner_nameless false). split_and!; [|reflexivity..].
    apply list_elem_of_further, list_elem_of_here.
Defined.

(** ** The run *)

Lemma bind_Ok {A B} (m : IO A) (k : A → IO B) w b w' :
  bind m k w = (Ok b, w') →
  ∃ a w1, m w = (Ok a, w1) ∧ k a w1 = (Ok b, w').
Proof.
  unfold bind. destruct (m w) as [[a|e] w1]; [eauto|done].
Qed.

Lemma fetch_output net token username year w res w' :
  get_contributions_for_year net token username year w = (res, w') →
  output_file w' = output_file w.
Proof.
  unfold get_contributions_for_year, bind, post.
  destruct (net (sent w) _) as [r|].
  - destruct (read_response username r); by intros [= _ <-].
  - by intros [= _ <-].
Qed.

Lemma for_tokens_output net year tokens d w res w' :
  for_tokens net year tokens d w = (res, w') →
  output_file w' = output_file w.
Proof.
  revert d w. induction tokens as [|token tokens IH]; intros d w; simpl.
  - by intros [= _ <-].
  - unfold bind.
    destruct (get_contributions_for_year _ _ _ _ w) as [[l|e] w1] eqn:Hf;
      apply fetch_output in Hf.
    + intros H%IH. congruence.
    + intros [= _ <-]. done.
Qed.

Lemma for_years_output net tokens years all w res w' :
  for_years net tokens years all w = (res, w') →
  output_file w' = output_file w.
Proof.
  revert all w. induction years as [|year years IH]; intros all w; simpl.
  - by intros [= _ <-].
  - unfold bind.
    destruct (for_tokens _ _ _ _ w) as [[d|e] w1] eqn:Ht;
      apply for_tokens_output in Ht.
    + intros H%IH. congruence.
    + intros [= _ <-]. done.
Qed.

(** The loop over the years gives every year it visits a key. *)
Lemma for_years_dom net tokens years all w all' w' :
  for_years net tokens years all w = (Ok all', w') →
  dom all ⊆ dom all' ∧ ∀ y, y ∈ years → str y ∈ dom all'.
Proof.
  revert all w. induction years as [|year years IH]; intros all w; simpl.
  - intros [= <- _]. split; [done|]. by intros y ?%elem_of_nil.
  - intros (d & w1 & _ & [Hsub Hys]%IH)%bind_Ok.
    rewrite dom_insert in Hsub. split.
    + intros k Hk. by apply Hsub, elem_of_union_r.
    + intros y [->|Hy]%elem_of_cons; [|by apply Hys].
      by apply Hsub, elem_of_union_l, elem_of_singleton.
Qed.

(** Without tokens nothing is requested and every visited year gets the
    empty list. *)
Lemma for_years_no_tokens net years all w :
  ∃ all', for_years net [] years all w = (Ok all', w)
          ∧ ∀ k, all' !! k =
                 if decide (k ∈ str <$> years) then Some [] else all !! k.
Proof.
  revert all. induction years as [|year years IH]; intros all.
  - exists all. split; [done|]. intros k. rewrite decide_False; [done|].
    apply not_elem_of_nil.
  - cbn [for_years for_tokens]. unfold bind, ret.
    destruct (IH (<[str year := []]> all)) as (all' & -> & Hall).
    exists all'. split; [done|]. intros k. rewrite Hall.
    destruct (decide (k ∈ str <$> years)) as [Hk|Hk].
    + rewrite decide_True; [done|]. by apply list_elem_of_further.
    + destruct (decide (k = str year)) as [->|Hne].
      * rewrite lookup_insert_eq, decide_True; [done|]. apply list_elem_of_here.
      * rewrite lookup_insert_ne by done. rewrite decide_False; [done|].
        by intros [?|?]%elem_of_cons.
Qed.

Lemma elem_of_range_down start stop y :
  y ∈ range_down start stop ↔ stop < y ≤ start.
Proof.
  unfold range_down. rewrite list_elem_of_fmap. split.
  - intros (i & -> & Hi%elem_of_seq). lia.
  - intros Hy. exists (Z.to_nat (start - y)). split; [lia|].
    apply elem_of_seq. lia.
Qed.

(** [sorted] keeps the items of the dictionary. *)
Lemma elem_of_sorted_desc (d : dataset) k l :
  (k, l) ∈ sorted_desc d ↔ d !! k = Some l.
Proof.
  unfold sorted_desc. rewrite merge_sort_Permutation.
  apply elem_of_map_to_list.
Qed.

Lemma sorted_desc_keys (d : dataset) k :
  k ∈ (sorted_desc d).*1 ↔ k ∈ dom d.
Proof.
  rewrite elem_of_dom, list_elem_of_fmap. split.
  - intros ([k' l] & -> & H%elem_of_sorted_desc). by eexists.
  - intros [l Hl]. exists (k, l). split; [done|]. by apply elem_of_sorted_desc.
Qed.

Lemma sorted_desc_NoDup (d : dataset) : NoDup (sorted_desc d).*1.
Proof.
  unfold sorted_desc. rewrite merge_sort_Permutation.
  apply NoDup_fst_map_to_list.
Qed.

Lemma add_orgs_keyed d orgs : keyed d → keyed (add_orgs d orgs).
Proof.
  unfold add_orgs. revert d.
  induction orgs as [|o orgs IH]; intros d Hd; [done|]. simpl.
  apply IH. destruct (dict_mem (login o) d); [done|]. by apply keyed_set.
Qed.

Lemma for_tokens_keyed net year tokens d w d' w' :
  keyed d → for_tokens net year tokens d w = (Ok d', w') → keyed d'.
Proof.
  revert d w. induction tokens as [|token tokens IH]; intros d w Hd; simpl.
  - by intros [= <- _].
  - intros (orgs & w1 & _ & Hrest)%bind_Ok.
    eapply IH; [|done]. by apply add_orgs_keyed.
Qed.

(** The loop over the years only stores lists with distinct logins. *)
Lemma for_years_buckets net tokens years (all : dataset) w all' w' :
  map_Forall (λ _ l, NoDup (login <$> l)) all →
  for_years net tokens years all w = (Ok all', w') →
  map_Forall (λ _ l, NoDup (login <$> l)) all'.
Proof.
  revert all w. induction years as [|year years IH]; intros all w Hall; simpl.
  - by intros [= <- _].
  - intros (d & w1 & Hd & Hrest)%bind_Ok.
    eapply IH; [|done]. apply map_Forall_insert_2; [|done].
    apply for_tokens_keyed in Hd; [|apply keyed_nil].
    destruct d as [|kv d]; [apply NoDup_nil_2|].
    rewrite keyed_logins by done. apply Hd.
Qed.

(** What a run writes is the sorted final dataset. *)
Lemma script_written env status w content :
  script env = (status, w) → output_file w = Some content →
  ∃ all w1 m,
    for_years (net env) (parse_tokens (default "" (GITHUB_TOKEN env)))
      (range_down (now_year env) 2015) ∅ fresh_world = (Ok all, w1)
    ∧ load_manual_contributions (manual env) w1 = (Ok m, w1)
    ∧ content = sorted_desc (if decide (m = ∅) then all
                             else merge_contributions all m).
Proof.
  unfold script. destruct (requests_installed env); [|by intros [= _ <-]].
  unfold main, bind. fold fresh_world.
  destruct (for_years _ _ _ _ fresh_world) as [[all|e] w1] eqn:Hy;
    apply for_years_output in Hy as Hout; simpl in Hout.
  2:{ intros [= _ <-]. by rewrite Hout. }
  unfold load_manual_contributions, write_output.
  destruct (manual env) as [| |m] eqn:Hm; simpl.
  - destruct (output_writable env); simpl.
    + intros [= _ <-] [= <-]. exists all, w1, ∅. done.
    + intros [= _ <-]. by rewrite Hout.
  - intros [= _ <-]. by rewrite Hout.
  - destruct (output_writable env); simpl.
    + intros [= _ <-] [= <-]. exists all, w1, m. done.
    + intros [= _ <-]. by rewrite Hout.
Qed.

(** X24.  Every list of the written file has pairwise distinct logins,
    with or without a manual file. *)
Lemma written_logins_distinct env status w content year l :
  script env = (status, w) →
  output_file w = Some content →
  (year, l) ∈ content →
  NoDup (login <$> l).
Proof.
  intros Hs Hout Hin.
  destruct (script_written _ _ _ _ Hs Hout) as (all & w1 & m & Hy & _ & ->).
  apply elem_of_sorted_desc in Hin.
  apply for_years_buckets in Hy; [|apply map_Forall_empty].
  case_decide; [by apply (Hy year)|].
  rewrite lookup_merge_contributions in Hin.
  case_decide; [|done]. injection Hin as <-. apply merge_year_NoDup.
Qed.

(** The written example of the specification: one hand-written record for
    2020 and no token. *)
Example by_hand_only_run :
  script by_hand_only = (0, World [] (Some by_hand_only_output)).
Proof. vm_compute. reflexivity. Qed.

(** C8.  The mapping a run writes has distinct keys, among them the label
    of every year from the current one down to 2016, whatever was found;
    and when no token is configured, every such year for which the manual
    file has no entry is mapped to the empty list. *)
Theorem output_spans_year_range env status w content :
  script env = (status, w) →
  output_file w = Some content →
  NoDup content.*1
  ∧ (∀ y, 2016 ≤ y ≤ now_year env → str y ∈ content.*1)
  ∧ (parse_tokens (default "" (GITHUB_TOKEN env)) = [] →
     ∀ y, 2016 ≤ y ≤ now_year env →
          manual_entries (manual env) (str y) = [] →
          (str y, []) ∈ content).
Proof.
  intros Hs Hout.
  destruct (script_written _ _ _ _ Hs Hout) as (all & w1 & m & Hy & Hm & ->).
  split_and!.
  - apply sorted_desc_NoDup.
  - intros y Hrange. apply sorted_desc_keys.
    assert (str y ∈ dom all) as Hdom.
    { apply for_years_dom in Hy as [_ Hy]. apply Hy, elem_of_range_down. lia. }
    case_decide; [done|].
    rewrite dom_merge_contributions. by apply elem_of_union_l.
  - intros Htokens y Hrange Hmanual. apply elem_of_sorted_desc.
    rewrite Htokens in Hy.
    destruct (for_years_no_tokens (net env) (range_down (now_year env) 2015)
                ∅ fresh_world) as (all0 & Hy0 & Hall).
    rewrite Hy0 in Hy. injection Hy as -> _.
    assert (all !! str y = Some []) as Hbucket.
    { rewrite Hall, decide_True; [done|].
      apply list_elem_of_fmap_2, elem_of_range_down. lia. }
    case_decide as Hempty; [done|].
    rewrite lookup_merge_contributions.
    rewrite decide_True by (apply elem_of_union_l, elem_of_dom; eauto).
    rewrite Hbucket. simpl. f_equal.
    destruct (manual env) as [| |m'] eqn:Hfile; simpl in Hm.
    + injection Hm as <-. done.
    + done.
    + injection Hm as <-. simpl in Hmanual. by rewrite Hmanual.
Qed.

Lemma output_spans_year_range_witness :
  str 2016 ∈ by_hand_only_output.*1 ∧ (str 2019, []) ∈ by_hand_only_output.
Proof.
  destruct (output_spans_year_range by_hand_only 0
              (World [] (Some by_hand_only_output)) by_hand_only_output)
    as (_ & Hkeys & Hempty).
  - vm_compute. reflexivity.
  - reflexivity.
  - split.
    + apply Hkeys. vm_compute. split; discriminate.
    + apply Hempty.
      * vm_compute. reflexivity.
      * vm_compute. split; discriminate.
      * vm_compute. reflexivity.
Defined.

Lemma read_response_total username r :
  status_code r ≠ 200
  ∨ (∃ data, json r = Some data
             ∧ (errors data = true ∨ has_null data = false)) →
  ∃ l, read_response username r = Ok l.
Proof.
  intros H. unfold read_response.
  destruct (status_code r =? 200) eqn:Hs; simpl; [|by eexists].
  apply Z.eqb_eq in Hs. destruct H as [?|(data & -> & Hok)]; [done|].
  destruct (errors data); [by eexists|].
  destruct Hok as [?|Hn]; [done|].
  rewrite (proj2 (scan_Ok username data _) (conj Hn eq_refl)). by eexists.
Qed.

Lemma fetch_total net token username year w :
  answers net →
  ∃ l w', get_contributions_for_year net token username year w = (Ok l, w').
Proof.
  intros Hnet.
  destruct (Hnet (sent w) (query token username year)) as (r & Hr & Hok).
  rewrite (fetch_responded _ _ _ _ _ r) by done.
  destruct (read_response_total username r Hok) as [l ->]. eauto.
Qed.

Lemma for_tokens_total net year tokens d w :
  answers net →
  ∃ d' w', for_tokens net year tokens d w = (Ok d', w').
Proof.
  intros Hnet. revert d w.
  induction tokens as [|token tokens IH]; intros d w; simpl; [by eauto|].
  unfold bind.
  destruct (fetch_total net token GITHUB_USERNAME year w Hnet) as (l & w1 & ->).
  apply IH.
Qed.

Lemma for_years_total net tokens years all w :
  answers net →
  ∃ all' w', for_years net tokens years all w = (Ok all', w').
Proof.
  intros Hnet. revert all w.
  induction years as [|year years IH]; intros all w; simpl; [by eauto|].
  unfold bind.
  destruct (for_tokens_total net year tokens [] w Hnet) as (d & w1 & ->).
  apply IH.
Qed.

(** C5, as stated, fails: nothing in the script catches an exception.
    With [requests] installed, a manual file that is not JSON ends the run
    with status 1 before anything is written, and so do a network that
    cannot be reached and an answer whose ["user"] is [null]. *)
Lemma uncaught_exception_exits_nonzero :
  (requests_installed broken_manual_file = true
   ∧ script broken_manual_file = (1, World [] None))
  ∧ (requests_installed network_down = true
     ∧ script network_down
       = (1, World [query "ghp_one" GITHUB_USERNAME 2021] None))
  ∧ (requests_installed user_not_found = true
     ∧ script user_not_found
       = (1, World [query "ghp_one" GITHUB_USERNAME 2021] None)).
Proof. split_and!; try reflexivity; vm_compute; reflexivity. Qed.

(** C5, amended.  Without the [requests] module the process exits with
    status 1.  With it, the run completes, writes the output file and
    exits with status 0 whenever every request is answered, every answer
    with status 200 has a JSON body that has an ["errors"] key or has no
    [null] where an object or a list is read (so whatever number of
    fetches fail by their status or by an ["errors"] key), the manual file
    is absent or decodes to a dataset (year label to list of records), and
    the output file can be written.  A manual file that is not JSON, or an
    output file that cannot be written, ends the process with status 1. *)
Theorem exit_status env :
  (requests_installed env = false → script env = (1, fresh_world))
  ∧ (requests_installed env = true →
     answers (net env) →
     manual env ≠ NotJSON →
     output_writable env = true →
     ∃ log content, script env = (0, World log (Some content)))
  ∧ (manual env = NotJSON ∨ output_writable env = false →
     (script env).1 = 1).
Proof.
  split_and!.
  - intros Hi. unfold script. by rewrite Hi.
  - intros Hi Hnet Hm Hw. unfold script, main, bind. rewrite Hi.
    destruct (for_years_total (net env)
                (parse_tokens (default "" (GITHUB_TOKEN env)))
                (range_down (now_year env) 2015) ∅ (World [] None) Hnet)
      as (all & w1 & ->).
    unfold write_output. rewrite Hw.
    destruct (manual env); [|done|]; simpl; eauto.
  - intros Hfail. unfold script, main, bind.
    destruct (requests_installed env); [|done].
    destruct (for_years _ _ _ _ _) as [[all|e] w1]; [|done].
    unfold write_output.
    destruct Hfail as [-> | ->]; [done|].
    by destruct (manual env).
Qed.

Lemma exit_status_witness :
  script requests_missing = (1, fresh_world)
  ∧ (∃ log content, script all_fetches_fail = (0, World log (Some content)))
  ∧ (script broken_manual_file).1 = 1.
Proof.
  split_and!.
  - apply (proj1 (exit_status requests_missing)). reflexivity.
  - apply (proj1 (proj2 (exit_status all_fetches_fail))).
    + reflexivity.
    + intros log req. exists bad_gateway. split; [reflexivity|].
      left. vm_compute. discriminate.
    + discriminate.
    + reflexivity.
  - apply (proj2 (proj2 (exit_status broken_manual_file))).
    left. reflexivity.
Defined.

(** ** Further properties of the merger *)

Lemma first_occurrences_snoc l k :
  first_occurrences (l ++ [k]) =
  if decide (k ∈ first_occurrences l) then first_occurrences l
  else first_occurrences l ++ [k].
Proof. unfold first_occurrences. by rewrite foldl_app. Qed.

Lemma elem_of_first_occurrences l k : k ∈ first_occurrences l ↔ k ∈ l.
Proof.
  induction l as [|x l IH] using rev_ind; [done|].
  rewrite first_occurrences_snoc, elem_of_app, list_elem_of_singleton.
  case_decide as Hx.
  - rewrite IH. split; [by left|]. intros [?| ->]; [done|]. by apply IH.
  - by rewrite elem_of_app, list_elem_of_singleton, IH.
Qed.

Lemma first_occurrences_NoDup l : NoDup l → first_occurrences l = l.
Proof.
  induction l as [|x l IH] using rev_ind; [done|].
  intros (Hl & Hx & _)%NoDup_app. rewrite first_occurrences_snoc, IH by done.
  rewrite decide_False; [done|].
  intros Hin. apply (Hx _ Hin), list_elem_of_here.
Qed.

Lemma first_occurrences_app l1 l2 :
  first_occurrences (l1 ++ l2) =
  first_occurrences l1
  ++ filter (λ k, k ∉ first_occurrences l1) (first_occurrences l2).
Proof.
  induction l2 as [|k l2 IH] using rev_ind.
  - by rewrite !app_nil_r.
  - rewrite (assoc_L (++)), !first_occurrences_snoc, IH.
    destruct (decide (k ∈ first_occurrences l2)) as [H2|H2].
    + rewrite decide_True; [done|].
      destruct (decide (k ∈ first_occurrences l1)) as [H1|H1].
      * apply elem_of_app. by left.
      * apply elem_of_app. right. by apply list_elem_of_filter.
    + rewrite filter_app.
      destruct (decide (k ∈ first_occurrences l1)) as [H1|H1].
      * rewrite decide_True by (apply elem_of_app; by left).
        rewrite filter_cons_False, filter_nil by (by intros ?).
        by rewrite app_nil_r.
      * rewrite decide_False.
        -- rewrite filter_cons_True, filter_nil by done.
           by rewrite (assoc_L (++)).
        -- intros [?|[_ ?]%list_elem_of_filter]%elem_of_app; done.
Qed.

(** The keys of [by_login] are the logins in the order of their first
    occurrence. *)
Lemma dict_keys_by_login l :
  dict_keys (by_login l) = first_occurrences (login <$> l).
Proof.
  induction l as [|o l IH] using rev_ind; [done|].
  rewrite by_login_snoc, dict_keys_set, fmap_app. simpl.
  rewrite first_occurrences_snoc, <-IH.
  destruct (dict_mem (login o) (by_login l)) eqn:Hm.
  - apply dict_mem_true in Hm. by rewrite decide_True.
  - apply dict_mem_false in Hm. by rewrite decide_False.
Qed.

Lemma filter_ext_elem {A} (P Q : A → Prop)
    `{!∀ x, Decision (P x), !∀ x, Decision (Q x)} (l : list A) :
  (∀ x, x ∈ l → P x ↔ Q x) → filter P l = filter Q l.
Proof.
  induction l as [|x l IH]; intros Hext; [done|].
  assert (filter P l = filter Q l) as Hl.
  { apply IH. intros y Hy. by apply Hext, list_elem_of_further. }
  pose proof (Hext x (list_elem_of_here _ _)) as Hx.
  destruct (decide (P x)) as [HP|HP].
  - rewrite !filter_cons_True by tauto. by rewrite Hl.
  - rewrite !filter_cons_False by tauto. done.
Qed.

Lemma dict_keys_union {V} (a b : dict V) :
  NoDup (dict_keys b) →
  dict_keys (dict_union a b) =
  dict_keys a ++ filter (λ k, k ∉ dict_keys a) (dict_keys b).
Proof.
  revert a. induction b as [|[k v] b IH]; intros a Hb.
  - by rewrite app_nil_r.
  - apply NoDup_cons in Hb as [Hk Hb]. simpl in Hk.
    rewrite dict_union_cons, IH, dict_keys_set by done.
    change (dict_keys ((k, v) :: b)) with (k :: dict_keys b).
    destruct (dict_mem k a) eqn:Hm.
    + apply dict_mem_true in Hm.
      by rewrite filter_cons_False by (by intros ?).
    + apply dict_mem_false in Hm.
      rewrite filter_cons_True by done.
      rewrite <-(assoc_L (++)). simpl. do 2 f_equal.
      apply filter_ext_elem. intros k' Hk'.
      rewrite elem_of_app, list_elem_of_singleton. split.
      * intros Hn ?. apply Hn. by left.
      * intros Hn [?| ->]; done.
Qed.

(** Two dictionaries with the same distinct keys in the same order and the
    same values are equal. *)
Lemma dict_ext {V} (d1 d2 : dict V) :
  NoDup (dict_keys d1) →
  dict_keys d1 = dict_keys d2 →
  (∀ k, dict_get k d1 = dict_get k d2) →
  d1 = d2.
Proof.
  revert d2. induction d1 as [|[k v] d1 IH]; intros [|[k2 v2] d2] Hnd Hk Hget;
    try done.
  simpl in Hk. injection Hk as <- Hk.
  apply NoDup_cons in Hnd as [Hk1 Hnd]. simpl in Hk1.
  pose proof (Hget k) as Hv. simpl in Hv. rewrite String.eqb_refl in Hv.
  injection Hv as <-. f_equal. apply IH; [done..|].
  intros k'. destruct (decide (k' = k)) as [->|Hne].
  - assert (k ∉ dict_keys d2) as Hk2 by (by rewrite <-Hk).
    apply dict_get_None in Hk1, Hk2. by rewrite Hk1, Hk2.
  - pose proof (Hget k') as Hv. simpl in Hv.
    apply String.eqb_neq in Hne. by rewrite Hne in Hv.
Qed.

Lemma record_for_app L l1 l2 :
  record_for L (l1 ++ l2) =
  match record_for L l2 with
  | Some o => Some o
  | None => record_for L l1
  end.
Proof. unfold record_for. by rewrite filter_app, last_app. Qed.

(** The combined dictionary is the one built from the automatic list
    followed by the manual list. *)
Lemma dict_union_by_login a b :
  dict_union (by_login a) (by_login b) = by_login (a ++ b).
Proof.
  apply dict_ext.
  - apply dict_union_NoDup, keyed_by_login.
  - rewrite dict_keys_union by apply keyed_by_login.
    by rewrite !dict_keys_by_login, fmap_app, first_occurrences_app.
  - intros k. rewrite dict_get_union by apply keyed_by_login.
    by rewrite !dict_get_by_login, record_for_app.
Qed.

Lemma by_login_distinct l :
  NoDup (login <$> l) → dict_values (by_login l) = l.
Proof.
  induction l as [|o l IH] using rev_ind; [done|].
  rewrite fmap_app. intros (Hl & Ho & _)%NoDup_app.
  rewrite by_login_snoc, dict_set_new.
  - unfold dict_values in *. by rewrite fmap_app, IH.
  - rewrite dict_keys_by_login, elem_of_first_occurrences.
    intros Hin. apply (Ho _ Hin), list_elem_of_here.
Qed.

(** X1.  The merged dataset has a list for exactly the year labels that
    one of the two inputs has: no year is lost and none is invented. *)
Theorem merged_years (auto manual : dataset) year :
  is_Some (merge_contributions auto manual !! year) ↔
  is_Some (auto !! year) ∨ is_Some (manual !! year).
Proof.
  rewrite <-!elem_of_dom, dom_merge_contributions. apply elem_of_union.
Qed.

(** X2.  The merged list of a year holds exactly: the record each login
    has in the manual list, and, for the logins the manual list does not
    have, the record the login has in the automatic list (in a list with a
    repeated login, the last record counts). *)
Theorem merged_records (auto manual : dataset) year l o :
  merge_contributions auto manual !! year = Some l →
  o ∈ l ↔
  record_for (login o) (default [] (manual !! year)) = Some o
  ∨ (record_for (login o) (default [] (manual !! year)) = None
     ∧ record_for (login o) (default [] (auto !! year)) = Some o).
Proof.
  rewrite lookup_merge_contributions. case_decide; [|done].
  intros [= <-]. unfold merge_year.
  rewrite keyed_values_get by (apply keyed_union; apply keyed_by_login).
  rewrite dict_get_union by apply keyed_by_login.
  rewrite !dict_get_by_login.
  destruct (record_for (login o) (default [] (manual !! year))) as [m|].
  - split; [by left|]. by intros [?|[? _]].
  - split; [by right|]. by intros [?|[_ ?]].
Qed.

Lemma merged_records_witness :
  Acme_by_hand ∈ [Acme_by_hand; Initech_by_hand]
  ↔ record_for "Acme" [Initech_by_hand; Acme_by_hand] = Some Acme_by_hand
    ∨ (record_for "Acme" [Initech_by_hand; Acme_by_hand] = None
       ∧ record_for "Acme" [Acme_fetched] = Some Acme_by_hand).
Proof.
  apply (merged_records fetched_2020 by_hand_two_2020 "2020"
           [Acme_by_hand; Initech_by_hand] Acme_by_hand).
  vm_compute. reflexivity.
Defined.

(** X3.  Merging a year is building one dictionary from the automatic list
    followed by the manual list: the merged list is the list of values of
    that dictionary. *)
Theorem merge_is_one_dictionary (auto manual : dataset) year l :
  merge_contributions auto manual !! year = Some l →
  l = dict_values (by_login (default [] (auto !! year)
                             ++ default [] (manual !! year))).
Proof.
  rewrite lookup_merge_contributions. case_decide; [|done].
  intros [= <-]. unfold merge_year. by rewrite dict_union_by_login.
Qed.

Lemma merge_is_one_dictionary_witness :
  [Acme_by_hand; Initech_by_hand]
  = dict_values (by_login ([Acme_fetched] ++ [Initech_by_hand; Acme_by_hand])).
Proof.
  apply (merge_is_one_dictionary fetched_2020 by_hand_two_2020 "2020").
  vm_compute. reflexivity.
Defined.

(** X4.  Order of the merged list: the logins of the automatic list come
    first, in the order of their first occurrence, then the logins that
    only the manual list has, in the order of their first occurrence
    there.  A manual record that replaces an automatic one takes its
    place. *)
Theorem merged_order (auto manual : dataset) year l :
  merge_contributions auto manual !! year = Some l →
  login <$> l =
  first_occurrences ((login <$> default [] (auto !! year))
                     ++ (login <$> default [] (manual !! year))).
Proof.
  rewrite lookup_merge_contributions. case_decide; [|done].
  intros [= <-]. unfold merge_year. rewrite dict_union_by_login.
  rewrite keyed_logins by apply keyed_by_login.
  by rewrite dict_keys_by_login, fmap_app.
Qed.

Lemma merged_order_witness :
  login <$> [Acme_by_hand; Initech_by_hand]
  = first_occurrences ((login <$> [Acme_fetched])
                       ++ (login <$> [Initech_by_hand; Acme_by_hand])).
Proof.
  apply (merged_order fetched_2020 by_hand_two_2020 "2020").
  vm_compute. reflexivity.
Defined.

(** X5.  A dataset whose lists have distinct logins is left as it is by a
    merge with the empty dataset, on either side: the test [if manual:] of
    [main] skips a merge that would change nothing. *)
Theorem merge_empty (A : dataset) :
  map_Forall (λ _ l, NoDup (login <$> l)) A →
  merge_contributions A ∅ = A ∧ merge_contributions ∅ A = A.
Proof.
  intros HA. split; apply map_eq; intros year;
    rewrite lookup_merge_contributions, dom_empty_L.
  - rewrite (right_id_L ∅ (∪)). case_decide as Hy.
    + apply elem_of_dom in Hy as [l Hl]. rewrite Hl, lookup_empty. simpl.
      f_equal. unfold merge_year.
      rewrite dict_union_by_login, app_nil_r.
      apply by_login_distinct. by apply (HA year).
    + by apply not_elem_of_dom in Hy.
  - rewrite (left_id_L ∅ (∪)). case_decide as Hy.
    + apply elem_of_dom in Hy as [l Hl]. rewrite Hl, lookup_empty. simpl.
      f_equal. unfold merge_year. rewrite dict_union_by_login. simpl.
      apply by_login_distinct. by apply (HA year).
    + by apply not_elem_of_dom in Hy.
Qed.

Lemma merge_empty_witness :
  merge_contributions by_hand_two_2020 ∅ = by_hand_two_2020
  ∧ merge_contributions ∅ by_hand_two_2020 = by_hand_two_2020.
Proof.
  apply (merge_empty by_hand_two_2020).
  intros year l Hl. unfold by_hand_two_2020 in Hl.
  apply lookup_singleton_Some in Hl as [_ <-].
  apply (bool_decide_unpack _). vm_compute. exact I.
Defined.

(** ** Further properties of the fetcher *)

(** X6.  Whatever the outcome of a call (a list, or an exception), it has
    sent exactly one request, the query for its token, username and year,
    and has left the output file alone. *)
Theorem fetch_sends_one_request net token username year w :
  (get_contributions_for_year net token username year w).2
  = World (sent w ++ [query token username year]) (output_file w).
Proof.
  unfold get_contributions_for_year, bind, post.
  destruct (net (sent w) _) as [r|]; [|done].
  by destruct (read_response username r).
Qed.

Lemma fetch_result net token username year w :
  (get_contributions_for_year net token username year w).1 =
  match net (sent w) (query token username year) with
  | Responded r => read_response username r
  | Unreachable => Raise ConnectionError
  end.
Proof.
  unfold get_contributions_for_year, bind, post.
  destruct (net (sent w) _) as [r|]; [|done].
  by destruct (read_response username r).
Qed.

Lemma scan_Raise username data :
  has_null data = true ↔ ∃ e, scan username data = Raise e.
Proof.
  destruct (scan_cases username data) as [[Hn ->]|[Hn [-> | ->]]];
    rewrite Hn; split; try done; eauto.
  by intros [e ?].
Qed.

Lemma scan_Raise_exn username data e :
  scan username data = Raise e → e = AttributeError ∨ e = TypeError.
Proof.
  destruct (scan_cases username data) as [[_ ->]|[_ [-> | ->]]];
    [done|intros [= <-]; auto..].
Qed.

(** X7.  A call raises in three cases only: the endpoint cannot be
    reached ([ConnectionError]); it answers with status 200 and a body
    that is not JSON ([JSONDecodeError]); it answers with status 200 and a
    JSON body without ["errors"] key that has a [null] where an object or a
    list is read ([AttributeError] or [TypeError]).  Under another status,
    or with an ["errors"] key, nothing of the body is read. *)
Theorem fetch_raises net token username year w :
  (∀ e, (get_contributions_for_year net token username year w).1 = Raise e →
     (net (sent w) (query token username year) = Unreachable
      ∧ e = ConnectionError)
     ∨ (∃ r, net (sent w) (query token username year) = Responded r
             ∧ status_code r = 200
             ∧ ((json r = None ∧ e = JSONDecodeError)
                ∨ (∃ data, json r = Some data ∧ errors data = false
                           ∧ has_null data = true
                           ∧ (e = AttributeError ∨ e = TypeError)))))
  ∧ (net (sent w) (query token username year) = Unreachable
     ∨ (∃ r, net (sent w) (query token username year) = Responded r
             ∧ status_code r = 200
             ∧ (json r = None
                ∨ ∃ data, json r = Some data ∧ errors data = false
                          ∧ has_null data = true)) →
     ∃ e, (get_contributions_for_year net token username year w).1 = Raise e).
Proof.
  rewrite fetch_result. split.
  - intros e. destruct (net (sent w) _) as [r|]; [|intros [= <-]; by left].
    unfold read_response.
    destruct (status_code r =? 200) eqn:Hs; simpl; [|done].
    apply Z.eqb_eq in Hs. intros He. right. exists r. split_and!; [done..|].
    destruct (json r) as [data|]; [|injection He as <-; by left].
    destruct (errors data) eqn:Herr; [done|].
    destruct (scan username data) as [st|e'] eqn:Hscan; [done|].
    injection He as ->. right. exists data. split_and!; [done..| |].
    + apply (scan_Raise username). eauto.
    + by apply (scan_Raise_exn username data).
  - intros [->|(r & -> & Hs & Hbody)]; [by eexists|].
    unfold read_response. rewrite Hs. simpl.
    destruct Hbody as [->|(data & -> & -> & Hn)]; [by eexists|].
    apply (scan_Raise username) in Hn as [e ->]. by eexists.
Qed.

Lemma fetch_raises_witness :
  ∃ e, (get_contributions_for_year (always null_user) "token"
          GITHUB_USERNAME 2020 fresh_world).1 = Raise e.
Proof.
  apply (fetch_raises (always null_user) "token" GITHUB_USERNAME 2020
           fresh_world).
  right. exists null_user. split_and!; [reflexivity..|].
  right. eexists. split_and!; reflexivity.
Defined.

Lemma record_of_fields username rc L :
  counted username rc = Some L →
  nonempty (login (record_of rc)) = true
  ∧ nonempty (name (record_of rc)) = true
  ∧ nonempty (avatarUrl (record_of rc)) = true.
Proof.
  intros [Hv _]%counted_valid.
  apply valid_owner_fields in Hv as (Hl & HL & a & Ha & Hna).
  unfold record_of. simpl. rewrite Hl, Ha. simpl. split_and!; [done| |done].
  destruct (owner_name (owner_of rc)) as [n|]; [|done].
  by destruct (nonempty n) eqn:Hn.
Qed.

(** X8.  Every record a call returns has a non-empty login, a non-empty
    name and a non-empty avatar URL. *)
Theorem returned_fields_nonempty net token username year w l w' o :
  get_contributions_for_year net token username year w = (Ok l, w') →
  o ∈ l →
  nonempty (login o) = true ∧ nonempty (name o) = true
  ∧ nonempty (avatarUrl o) = true.
Proof.
  intros (r & _ & Hr)%fetch_returns Ho.
  apply read_response_Ok in Hr as [->|(data & _ & ->)].
  { by apply elem_of_nil in Ho. }
  apply elem_of_with_public in Ho as [(rc & Hfirst & ->) _].
  apply first_entry_Some in Hfirst as (_ & _ & _ & Hc & _).
  by apply (record_of_fields username rc (login (record_of rc))).
Qed.

Lemma returned_fields_nonempty_witness :
  nonempty (login (record_of (repo_of owner_nameless false))) = true
  ∧ nonempty (name (record_of (repo_of owner_nameless false))) = true
  ∧ nonempty (avatarUrl (record_of (repo_of owner_nameless false))) = true.
Proof.
  apply (returned_fields_nonempty (always public_response) "token"
           GITHUB_USERNAME 2020 fresh_world
           [record_of (repo_of owner_Acme true);
            record_of (repo_of owner_nameless false)]
           (World [query "token" GITHUB_USERNAME 2020] None)).
  - vm_compute. reflexivity.
  - apply list_elem_of_further, list_elem_of_here.
Defined.

Lemma counted_lower username username' rc :
  lower username = lower username' →
  counted username rc = counted username' rc.
Proof. intros H. unfold counted. by rewrite H. Qed.

Lemma scanned_lower username username' es :
  lower username = lower username' →
  scanned username es = scanned username' es.
Proof.
  intros H. induction es as [|rc es IH] using rev_ind; [done|].
  rewrite !scanned_snoc, !visit_counted, IH.
  by rewrite (counted_lower username username').
Qed.

Lemma for_each_ext {S A} (f g : S → A → result S) st l :
  (∀ st x, f st x = g st x) → for_each f st l = for_each g st l.
Proof.
  intros Hfg. revert st. induction l as [|x l IH]; intros st; [done|].
  simpl. rewrite Hfg. destruct (g st x); [apply IH|done].
Qed.

Lemma scan_lower username username' data :
  lower username = lower username' →
  scan username data = scan username' data.
Proof.
  intros H. unfold scan, call.
  destruct (get_default (body_data data) empty_data) as [d|]; [|done].
  destruct (get_default (user d) empty_user) as [u|]; [|done].
  apply for_each_ext. intros st contrib_type.
  destruct (get_default (contributionsCollection u) empty_collection)
    as [c|]; [|done].
  destruct (get_default (by_repository c contrib_type) []) as [repos|];
    [|done].
  apply for_each_ext. intros st' rc. rewrite !visit_step.
  destruct (null_object rc); [done|].
  by rewrite !visit_counted, (counted_lower username username').
Qed.

(** X9.  What is read from a response depends on the username only up to
    case: two usernames with the same lower-case form give the same
    result. *)
Theorem read_response_username_case username username' r :
  lower username = lower username' →
  read_response username r = read_response username' r.
Proof.
  intros H. unfold read_response.
  destruct (negb _); [done|]. destruct (json r) as [data|]; [|done].
  destruct (errors data); [done|].
  by rewrite (scan_lower username username').
Qed.

Lemma read_response_username_case_witness :
  read_response "HaythemSellami" self_response
  = read_response GITHUB_USERNAME self_response.
Proof.
  apply (read_response_username_case "HaythemSellami" GITHUB_USERNAME).
  vm_compute. reflexivity.
Defined.

Lemma scanned_keys username es :
  dict_keys (scanned username es).1
  = first_occurrences (omap (counted username) es).
Proof.
  induction es as [|rc es IH] using rev_ind; [done|].
  rewrite scanned_snoc, visit_counted, omap_app. simpl.
  destruct (counted username rc) as [L|]; simpl.
  - rewrite first_occurrences_snoc, <-IH.
    destruct (dict_mem L (scanned username es).1) eqn:Hm.
    + apply dict_mem_true in Hm. by rewrite decide_True.
    + rewrite dict_keys_set, Hm.
      apply dict_mem_false in Hm. by rewrite decide_False.
  - by rewrite app_nil_r.
Qed.

Lemma elem_of_public_logins username es L :
  L ∈ public_logins username es ↔
  ∃ rc, rc ∈ es ∧ counted username rc = Some L ∧ is_public rc = true.
Proof.
  unfold public_logins. rewrite list_elem_of_omap. split.
  - intros (rc & Hin & Hc). exists rc. by destruct (is_public rc).
  - intros (rc & Hin & Hc & Hp). exists rc. by rewrite Hp.
Qed.

Lemma fmap_login_filter (X : gset string) (l : list org) :
  login <$> filter (λ o, login o ∈ X) l = filter (λ L, L ∈ X) (login <$> l).
Proof.
  induction l as [|o l IH]; [done|]. rewrite fmap_cons.
  destruct (decide (login o ∈ X)).
  - rewrite !filter_cons_True by done. by rewrite fmap_cons, IH.
  - by rewrite !filter_cons_False by done.
Qed.

(** X10.  Order of the returned list, for a response with status 200 and
    no ["errors"] key on which the call returns: the logins counted in the
    three lists, each at the place of its first occurrence in visiting
    order, without those that have no entry that is not private. *)
Theorem returned_order net token username year w r data l w' :
  net (sent w) (query token username year) = Responded r →
  status_code r = 200 → json r = Some data → errors data = false →
  get_contributions_for_year net token username year w = (Ok l, w') →
  login <$> l =
  filter (λ L, L ∈ public_logins username (entries data))
         (first_occurrences (omap (counted username) (entries data))).
Proof.
  intros Hr Hs Hj He Hl.
  apply (fetch_scanned _ _ _ _ _ r data) in Hl as (_ & _ & ->); [|done..].
  unfold with_public. rewrite fmap_login_filter.
  rewrite keyed_logins, scanned_keys by apply scanned_keyed.
  apply filter_ext_elem. intros L _.
  by rewrite scanned_public, elem_of_public_logins.
Qed.

Lemma returned_order_witness :
  login <$> [record_of (repo_of owner_nameless true);
             record_of (repo_unflagged owner_Acme)]
  = filter (λ L, L ∈ public_logins GITHUB_USERNAME (entries mixed_data))
           (first_occurrences
              (omap (counted GITHUB_USERNAME) (entries mixed_data))).
Proof.
  apply (returned_order (always mixed_response) "token"
           GITHUB_USERNAME 2020 fresh_world mixed_response mixed_data
           [record_of (repo_of owner_nameless true);
            record_of (repo_unflagged owner_Acme)]
           (World [query "token" GITHUB_USERNAME 2020] None));
    vm_compute; reflexivity.
Defined.

(** X11.  A repository entry without an ["isPrivate"] key (or with
    [null]) counts as not private: for a response with status 200 and no
    ["errors"] key on which the call returns, the login under which such
    an entry is counted is in the returned list. *)
Theorem unflagged_entry_is_public net token username year w r data rc L l w' :
  net (sent w) (query token username year) = Responded r →
  status_code r = 200 → json r = Some data → errors data = false →
  get_contributions_for_year net token username year w = (Ok l, w') →
  rc ∈ entries data →
  counted username rc = Some L →
  isPrivate (repository_of rc) = None →
  L ∈ login <$> l.
Proof.
  intros Hr Hs Hj He Hl Hin Hc Hflag.
  apply (fetch_scanned _ _ _ _ _ r data) in Hl as (_ & _ & ->); [|done..].
  apply (with_public_present username _ rc); [done..|].
  unfold is_public. by rewrite Hflag.
Qed.

Lemma unflagged_entry_is_public_witness :
  "Acme" ∈ login <$> [record_of (repo_of owner_nameless true);
                      record_of (repo_unflagged owner_Acme)].
Proof.
  apply (unflagged_entry_is_public (always mixed_response) "token"
           GITHUB_USERNAME 2020 fresh_world mixed_response mixed_data
           (repo_unflagged owner_Acme) "Acme"
           [record_of (repo_of owner_nameless true);
            record_of (repo_unflagged owner_Acme)]
           (World [query "token" GITHUB_USERNAME 2020] None));
    try (vm_compute; reflexivity).
  do 2 apply list_elem_of_further. apply list_elem_of_here.
Defined.

Lemma scanned_filter username es :
  scanned username (filter (λ rc, is_Some (counted username rc)) es)
  = scanned username es.
Proof.
  induction es as [|rc es IH] using rev_ind; [done|].
  rewrite filter_app, scanned_snoc, visit_counted.
  destruct (counted username rc) as [L|] eqn:Hc.
  - rewrite filter_cons_True, filter_nil by (rewrite Hc; by eexists).
    by rewrite scanned_snoc, visit_counted, Hc, IH.
  - rewrite filter_cons_False, filter_nil, app_nil_r; [done|].
    rewrite Hc. by intros [].
Qed.

Lemma entries_map_lists f data :
  (∀ l1 l2, f (l1 ++ l2) = f l1 ++ f l2) → f [] = [] →
  entries (map_lists f data) = f (entries data).
Proof.
  intros Happ Hnil. destruct data as [e d].
  unfold entries, collection, collection_of, map_lists. simpl.
  destruct d as [| |[u]]; simpl; rewrite ?Hnil; [done..|].
  destruct u as [| |[c]]; simpl; rewrite ?Hnil; [done..|].
  destruct c as [| |[lists]]; simpl; rewrite ?Hnil; [done..|].
  rewrite !Happ.
  by destruct (lists commitContributionsByRepository),
    (lists pullRequestContributionsByRepository),
    (lists issueContributionsByRepository); simpl; rewrite ?Hnil.
Qed.

Lemma has_null_not_elem data rc :
  has_null data = false → rc ∈ entries data → null_object rc = false.
Proof.
  unfold has_null. intros Hn Hin.
  apply orb_false_elim in Hn as [_ Hn].
  destruct (null_object rc) eqn:Hrc; [|done].
  rewrite <-Hn. symmetry. apply existsb_exists. exists rc.
  by rewrite <-list_elem_of_In.
Qed.

Lemma has_null_map_lists f data :
  (∀ l1 l2, f (l1 ++ l2) = f l1 ++ f l2) → f [] = [] →
  (∀ l x, x ∈ f l → x ∈ l) →
  has_null data = false → has_null (map_lists f data) = false.
Proof.
  intros Happ Hnil Hsub Hn.
  assert (existsb null_object (entries (map_lists f data)) = false) as Hes.
  { rewrite entries_map_lists by done.
    destruct (existsb null_object (f (entries data))) eqn:Hex; [|done].
    apply existsb_exists in Hex as (rc & Hin%list_elem_of_In%Hsub & Hrc).
    by rewrite (has_null_not_elem data rc) in Hrc. }
  unfold has_null in *. apply orb_false_elim in Hn as [Hpath _].
  apply orb_false_intro; [|exact Hes]. clear Hes. revert Hpath.
  destruct data as [e d]. unfold collection_of, map_lists. simpl.
  destruct d as [| |[u]]; simpl; [done..|].
  destruct u as [| |[c]]; simpl; [done..|].
  destruct c as [| |[lists]]; simpl; [done..|].
  by destruct (lists commitContributionsByRepository),
    (lists pullRequestContributionsByRepository),
    (lists issueContributionsByRepository).
Qed.

(** X12.  The entries the loop skips (an absent repository or owner, an
    empty or missing login or avatar URL, the subject's own login) have no
    effect: when something is read from a body, the same is read from the
    body without them, whatever the status. *)
Theorem skipped_entries_have_no_effect username status data l :
  read_response username (Response status (Some data)) = Ok l →
  read_response username (Response status (Some (without_skipped username data)))
  = Ok l.
Proof.
  unfold read_response. simpl. destruct (negb _); [done|].
  change (errors (without_skipped username data)) with (errors data).
  destruct (errors data); [done|].
  destruct (scan username data) as [st|e] eqn:Hscan; [|done].
  apply scan_Ok in Hscan as [Hn ->]. intros [= <-].
  assert (scan username (without_skipped username data)
          = Ok (scanned username (entries (without_skipped username data))))
    as ->.
  { apply scan_Ok. split; [|done]. unfold without_skipped.
    apply has_null_map_lists; [apply filter_app|done| |done].
    by intros l' x [_ ?]%list_elem_of_filter. }
  unfold without_skipped.
  by rewrite entries_map_lists, scanned_filter by (done || apply filter_app).
Qed.

Lemma skipped_entries_have_no_effect_witness :
  read_response GITHUB_USERNAME
    (Response 200 (Some (without_skipped GITHUB_USERNAME mixed_data)))
  = Ok [record_of (repo_of owner_nameless true);
        record_of (repo_unflagged owner_Acme)].
Proof.
  apply (skipped_entries_have_no_effect GITHUB_USERNAME 200 mixed_data).
  vm_compute. reflexivity.
Defined.

(** ** Further properties of the run *)

Lemma add_orgs_cons d o orgs :
  add_orgs d (o :: orgs) =
  add_orgs (if dict_mem (login o) d then d else dict_set (login o) o d) orgs.
Proof. unfold add_orgs. simpl. by destruct (dict_mem (login o) d). Qed.

(** X13.  The union over the tokens keeps, for each login, the first
    record reported: a login the year already has keeps its record, a new
    login takes the first record of the list that has it.  (The merger
    does the opposite, the last record wins.) *)
Theorem add_orgs_first_wins year_orgs orgs L :
  dict_get L (add_orgs year_orgs orgs) =
  match dict_get L year_orgs with
  | Some o => Some o
  | None => head (filter (λ o, login o = L) orgs)
  end.
Proof.
  revert year_orgs. induction orgs as [|o orgs IH]; intros d.
  - change (add_orgs d []) with d. by destruct (dict_get L d).
  - rewrite add_orgs_cons, IH. unfold dict_mem.
    destruct (decide (login o = L)) as [<-|Hne].
    + rewrite filter_cons_True by done. simpl.
      destruct (dict_get (login o) d) as [o'|] eqn:Hd; [by rewrite Hd|].
      by rewrite dict_get_set_eq.
    + rewrite filter_cons_False by done.
      destruct (dict_get (login o) d) as [o'|] eqn:Hd; [done|].
      by rewrite dict_get_set_ne.
Qed.

Lemma fetch_world net token username year w :
  (get_contributions_for_year net token username year w).2
  = World (sent w ++ [query token username year]) (output_file w).
Proof.
  unfold get_contributions_for_year, bind, post.
  destruct (net (sent w) _) as [r|]; [|done].
  by destruct (read_response username r).
Qed.

(** The requests of the loop over the tokens: those of the tokens, in
    order, up to the first call that raises. *)
Lemma for_tokens_log net year tokens d w res w' :
  for_tokens net year tokens d w = (res, w') →
  ∃ p, w' = World (sent w ++ p) (output_file w)
       ∧ p `prefix_of` ((λ token, query token GITHUB_USERNAME year) <$> tokens)
       ∧ (∀ d', res = Ok d' →
                p = (λ token, query token GITHUB_USERNAME year) <$> tokens).
Proof.
  revert d w. induction tokens as [|token tokens IH]; intros d w; simpl.
  - intros [= <- <-]. exists []. rewrite app_nil_r. by destruct w.
  - unfold bind.
    pose proof (fetch_world net token GITHUB_USERNAME year w) as Hw.
    destruct (get_contributions_for_year _ _ _ _ w) as [[l|e] w1];
      simpl in Hw; subst w1.
    + intros (p & -> & Hp & Hall)%IH. simpl.
      exists (query token GITHUB_USERNAME year :: p). split_and!.
      * by rewrite <-(assoc_L (++)).
      * by apply prefix_cons.
      * intros d' Hd'. by rewrite (Hall d' Hd').
    + intros [= <- <-]. exists [query token GITHUB_USERNAME year].
      split_and!; [done| |done]. apply prefix_cons, prefix_nil.
Qed.

Lemma for_years_log net tokens years all w res w' :
  for_years net tokens years all w = (res, w') →
  ∃ p, w' = World (sent w ++ p) (output_file w)
       ∧ p `prefix_of` requests_of tokens years
       ∧ (∀ all', res = Ok all' → p = requests_of tokens years).
Proof.
  unfold requests_of.
  revert all w. induction years as [|year years IH]; intros all w; simpl.
  - intros [= <- <-]. exists []. rewrite app_nil_r. by destruct w.
  - unfold bind.
    destruct (for_tokens net year tokens [] w) as [[d|e] w1] eqn:Ht;
      apply for_tokens_log in Ht as (p1 & -> & Hp1 & Hall1).
    + intros (p & -> & Hp & Hall)%IH. simpl.
      rewrite (Hall1 d eq_refl). eexists. split_and!.
      * by rewrite <-(assoc_L (++)).
      * by apply prefix_app.
      * intros all' Hall'. by rewrite (Hall all' Hall').
    + intros [= <- <-]. exists p1. split_and!; [done| |done].
      by apply prefix_app_r.
Qed.

Lemma script_log env :
  requests_installed env = true →
  ∃ res w1,
    for_years (net env) (tokens_of env) (years_of env) ∅ fresh_world = (res, w1)
    ∧ sent (script env).2 = sent w1
    ∧ (∀ e, res = Raise e → script env = (1, w1)).
Proof.
  intros Hi. unfold script, main, bind. rewrite Hi.
  fold (tokens_of env). fold (years_of env). fold fresh_world.
  destruct (for_years _ _ _ _ fresh_world) as [[all|e] w1]; do 2 eexists;
    (split; [done|]); [|done].
  split; [|done].
  unfold load_manual_contributions, write_output.
  destruct (manual env), (output_writable env); done.
Qed.

(** X14.  A run never sends a request outside the plan, never repeats one
    of it and never changes their order: the requests it has sent when it
    ends are a prefix of the list that has, for each year from the current
    one down to 2016, one request per token. *)
Theorem requests_follow_plan env :
  sent (script env).2 `prefix_of` requests_of (tokens_of env) (years_of env).
Proof.
  destruct (requests_installed env) eqn:Hi.
  - destruct (script_log env Hi) as (res & w1 & Hy & -> & _).
    apply for_years_log in Hy as (p & -> & Hp & _). done.
  - unfold script. rewrite Hi. apply prefix_nil.
Qed.

(** X15.  When every request is answered, and every answer with status
    200 has a JSON body that has an ["errors"] key or has no [null] where
    an object or a list is read, the run sends the whole plan: exactly one
    request per token and year, also when fetches fail by status or error
    body, when the manual file cannot be read and when nothing can be
    written. *)
Theorem requests_complete env :
  requests_installed env = true →
  answers (net env) →
  sent (script env).2 = requests_of (tokens_of env) (years_of env)
  ∧ length (sent (script env).2)
    = (length (years_of env) * length (tokens_of env))%nat.
Proof.
  intros Hi Hnet.
  destruct (script_log env Hi) as (res & w1 & Hy & -> & _).
  destruct (for_years_total (net env) (tokens_of env) (years_of env) ∅
              fresh_world Hnet) as (all & w2 & Hy').
  rewrite Hy' in Hy. injection Hy as <- <-.
  apply for_years_log in Hy' as (p & -> & _ & Hall). simpl.
  rewrite (Hall all eq_refl). split; [done|].
  unfold requests_of. generalize (years_of env). intros years.
  induction years as [|y years IH]; [done|].
  rewrite bind_cons, length_app, length_fmap, IH. done.
Qed.

Lemma requests_complete_witness :
  sent (script all_fetches_fail).2
  = requests_of ["ghp_one"; "ghp_two"] [2017; 2016]
  ∧ length (sent (script all_fetches_fail).2) = (2 * 2)%nat.
Proof.
  apply (requests_complete all_fetches_fail).
  - reflexivity.
  - intros log req. exists bad_gateway. split; [reflexivity|].
    left. vm_compute. discriminate.
Defined.

(** X16.  The exit status is 0 or 1, and it is 0 exactly when the run has
    written the output file: a run that fails writes nothing, not even a
    part of the file. *)
Theorem exit_zero_iff_written env :
  ((script env).1 = 0 ∨ (script env).1 = 1)
  ∧ ((script env).1 = 0 ↔ is_Some (output_file (script env).2)).
Proof.
  unfold script. destruct (requests_installed env).
  2:{ simpl. split; [by right|]. split; [done|]. by intros []. }
  unfold main, bind. fold fresh_world.
  destruct (for_years _ _ _ _ fresh_world) as [[all|e] w1] eqn:Hy;
    apply for_years_output in Hy; simpl in Hy.
  2:{ simpl. rewrite Hy. split; [by right|]. split; [done|]. by intros []. }
  unfold load_manual_contributions, write_output.
  destruct (manual env), (output_writable env); simpl; rewrite ?Hy;
    (split; [by (left + right)|]); (split; [done || by eexists|]);
    done || by intros [].
Qed.

Lemma read_response_refused username r :
  status_code r ≠ 200 ∨ (∃ data, json r = Some data ∧ errors data = true) →
  read_response username r = Ok [].
Proof.
  intros Hfail. unfold read_response.
  destruct (status_code r =? 200) eqn:Hs; simpl; [|done].
  apply Z.eqb_eq in Hs. by destruct Hfail as [?|(data & -> & ->)].
Qed.

Lemma for_tokens_refused net year tokens d w :
  refuses net → ∃ w', for_tokens net year tokens d w = (Ok d, w').
Proof.
  intros Hnet. revert w. induction tokens as [|token tokens IH]; intros w.
  - by eexists.
  - simpl. unfold bind.
    destruct (Hnet (sent w) (query token GITHUB_USERNAME year))
      as (r & Hr & Hfail).
    rewrite (fetch_responded _ _ _ _ _ r) by done.
    rewrite read_response_refused by done. apply IH.
Qed.

Lemma for_years_refused net tokens years all w w0 :
  refuses net →
  ∃ all' w', for_years net tokens years all w = (Ok all', w')
             ∧ for_years net [] years all w0 = (Ok all', w0).
Proof.
  intros Hnet. revert all w.
  induction years as [|year years IH]; intros all w.
  - by do 2 eexists.
  - cbn [for_years for_tokens]. unfold bind, ret.
    destruct (for_tokens_refused net year tokens [] w Hnet) as [w1 ->].
    apply IH.
Qed.

(** X17.  When every fetch fails by its status or by an ["errors"] body,
    the run ends as the same run without any token: same exit status,
    same file written. *)
Theorem refused_fetches_as_no_token env :
  refuses (net env) →
  (script env).1 = (script (without_tokens env)).1
  ∧ output_file (script env).2 = output_file (script (without_tokens env)).2.
Proof.
  intros Hnet. unfold script, main, bind. simpl.
  destruct (requests_installed env); [|done].
  change (parse_tokens "") with (@nil string).
  destruct (for_years_refused (net env)
              (parse_tokens (default "" (GITHUB_TOKEN env)))
              (range_down (now_year env) 2015) ∅ (World [] None)
              (World [] None) Hnet) as (all & w1 & Hy & Hy0).
  pose proof (for_years_output _ _ _ _ _ _ _ Hy) as Hout. simpl in Hout.
  rewrite Hy, Hy0. unfold load_manual_contributions, write_output.
  destruct (manual env), (output_writable env); simpl; by rewrite ?Hout.
Qed.

Lemma refused_fetches_as_no_token_witness :
  (script all_fetches_fail).1 = (script (without_tokens all_fetches_fail)).1
  ∧ output_file (script all_fetches_fail).2
    = output_file (script (without_tokens all_fetches_fail)).2.
Proof.
  apply (refused_fetches_as_no_token all_fetches_fail).
  intros log req. exists bad_gateway. split; [reflexivity|].
  left. vm_compute. discriminate.
Defined.

Lemma for_years_dom_exact net tokens years (all : dataset) w all' w' k :
  for_years net tokens years all w = (Ok all', w') →
  k ∈ dom all' ↔ k ∈ dom all ∨ k ∈ str <$> years.
Proof.
  revert all w. induction years as [|year years IH]; intros all w; simpl.
  - intros [= <- _]. split; [by left|]. by intros [?|?%elem_of_nil].
  - intros (d & w1 & _ & ->%IH)%bind_Ok.
    rewrite dom_insert, elem_of_union, elem_of_singleton, elem_of_cons.
    tauto.
Qed.

(** X18.  The keys of the written mapping are exactly the labels of the
    years from the current one down to 2016 and the year labels of the
    manual file: a manual year outside the range is written, nothing else
    is. *)
Theorem output_keys env status w content k :
  script env = (status, w) →
  output_file w = Some content →
  k ∈ content.*1 ↔ k ∈ str <$> years_of env ∨ k ∈ manual_years (manual env).
Proof.
  intros Hs Hout.
  destruct (script_written _ _ _ _ Hs Hout) as (all & w1 & m & Hy & Hm & ->).
  rewrite sorted_desc_keys.
  assert (manual_years (manual env) = dom m) as ->.
  { destruct (manual env) as [| |m0]; simpl in Hm; [|done|];
      injection Hm as Hm; subst m; simpl; by rewrite ?dom_empty_L. }
  pose proof (for_years_dom_exact _ _ _ _ _ _ _ k Hy) as Hk.
  rewrite dom_empty_L in Hk. unfold years_of.
  case_decide as Hempty.
  - subst m. rewrite dom_empty_L, Hk.
    split; [intros [[]%not_elem_of_empty|?]; by left|].
    intros [?|[]%not_elem_of_empty]. by right.
  - rewrite dom_merge_contributions, elem_of_union, Hk.
    split; [intros [[[]%not_elem_of_empty|?]|?]; tauto|].
    intros [?|?]; tauto.
Qed.

Lemma output_keys_witness :
  "2010" ∈ by_hand_2010_output.*1
  ↔ "2010" ∈ str <$> [2017; 2016]
    ∨ "2010" ∈ manual_years (manual by_hand_2010).
Proof.
  apply (output_keys by_hand_2010 0 (World (sent (script by_hand_2010).2)
                                       (Some by_hand_2010_output))).
  - vm_compute. reflexivity.
  - reflexivity.
Defined.

Lemma string_leb_trans a b c :
  String.leb a b = true → String.leb b c = true → String.leb a c = true.
Proof.
  unfold String.leb. revert b c.
  induction a as [|x a IH]; intros [|y b] [|z c]; simpl; try done.
  unfold Ascii.compare.
  destruct (N.compare_spec (N_of_ascii x) (N_of_ascii y));
    destruct (N.compare_spec (N_of_ascii y) (N_of_ascii z));
    destruct (N.compare_spec (N_of_ascii x) (N_of_ascii z));
    try done; try lia.
  apply IH.
Qed.

Lemma key_ge_trans : Transitive key_ge.
Proof. intros x y z Hxy Hyz. by apply (string_leb_trans _ y.1). Qed.

Lemma key_ge_total : Total key_ge.
Proof. intros x y. unfold key_ge. destruct (String.leb_total y.1 x.1); auto. Qed.

Lemma string_leb_ne_ltb a b :
  String.leb a b = true → a ≠ b → String.ltb a b = true.
Proof.
  unfold String.leb, String.ltb. intros Hle Hne.
  destruct (String.compare a b) eqn:Hc; [|done..].
  by apply String.compare_eq_iff in Hc.
Qed.

Lemma StronglySorted_key_gt (l : file_content) :
  StronglySorted key_ge l → NoDup l.*1 → StronglySorted key_gt l.
Proof.
  induction 1 as [|x l Hl IH Hx]; intros Hnd; [constructor|].
  rewrite fmap_cons in Hnd. apply NoDup_cons in Hnd as [Hx1 Hnd].
  constructor; [by apply IH|].
  apply Forall_forall. intros y Hy. rewrite Forall_forall in Hx.
  apply string_leb_ne_ltb; [by apply Hx|].
  intros Heq. apply Hx1. rewrite <-Heq. by apply list_elem_of_fmap_2.
Qed.

(** X19.  The written mapping is sorted: every key is strictly greater,
    as a string, than all the keys after it. *)
Theorem output_sorted env status w content :
  script env = (status, w) →
  output_file w = Some content →
  StronglySorted key_gt content.
Proof.
  intros Hs Hout.
  destruct (script_written _ _ _ _ Hs Hout) as (all & w1 & m & _ & _ & ->).
  apply StronglySorted_key_gt; [|apply sorted_desc_NoDup].
  unfold sorted_desc.
  apply (@StronglySorted_merge_sort _ key_ge _ key_ge_trans key_ge_total).
Qed.

Lemma output_sorted_witness : StronglySorted key_gt by_hand_2010_output.
Proof.
  apply (output_sorted by_hand_2010 0
           (World (sent (script by_hand_2010).2) (Some by_hand_2010_output))).
  - vm_compute. reflexivity.
  - reflexivity.
Defined.

Lemma merge_year_manual auto_list manual_list L m :
  record_for L manual_list = Some m →
  m ∈ merge_year auto_list manual_list
  ∧ ∀ o, o ∈ merge_year auto_list manual_list → login o = L → o = m.
Proof.
  intros Hm. unfold merge_year.
  set (d := dict_union (by_login auto_list) (by_login manual_list)).
  assert (keyed d) as Hk by (apply keyed_union; apply keyed_by_login).
  assert (dict_get L d = Some m) as Hget.
  { unfold d. rewrite dict_get_union by apply keyed_by_login.
    by rewrite dict_get_by_login, Hm. }
  assert (login m = L) as Hlm.
  { apply dict_get_elem in Hget. by apply Hk in Hget. }
  split.
  - apply keyed_values_get; [done|]. by rewrite Hlm.
  - intros o Ho <-. apply keyed_values_get in Ho; [|done]. congruence.
Qed.

(** X20.  Every record of the manual file reaches the written file: the
    record the manual list of a year holds for a login is in the list
    written for that year, and it is the only record written there with
    that login, whatever was fetched. *)
Theorem manual_records_written env status w content m year manual_list L o :
  script env = (status, w) →
  output_file w = Some content →
  manual env = Parsed m →
  m !! year = Some manual_list →
  record_for L manual_list = Some o →
  ∃ l, (year, l) ∈ content
       ∧ o ∈ l
       ∧ ∀ o', o' ∈ l → login o' = L → o' = o.
Proof.
  intros Hs Hout Hfile Hyear Ho.
  destruct (script_written _ _ _ _ Hs Hout) as (all & w1 & m' & _ & Hm & ->).
  rewrite Hfile in Hm. simpl in Hm. injection Hm as <-.
  rewrite decide_False by (intros ->; by rewrite lookup_empty in Hyear).
  eexists. rewrite elem_of_sorted_desc, lookup_merge_contributions.
  rewrite decide_True by (apply elem_of_union; right; apply elem_of_dom; eauto).
  rewrite Hyear. simpl. split; [done|]. by apply merge_year_manual.
Qed.

Lemma manual_records_written_witness :
  ∃ l, ("2010", l) ∈ by_hand_2010_output
       ∧ Acme_by_hand ∈ l
       ∧ ∀ o', o' ∈ l → login o' = "Acme" → o' = Acme_by_hand.
Proof.
  apply (manual_records_written by_hand_2010 0
           (World (sent (script by_hand_2010).2) (Some by_hand_2010_output))
           by_hand_2010_output
           {[ "2010" := [Initech_by_hand; Acme_by_hand] ]}
           "2010" [Initech_by_hand; Acme_by_hand] "Acme" Acme_by_hand).
  - vm_compute. reflexivity.
  - reflexivity.
  - reflexivity.
  - vm_compute. reflexivity.
  - vm_compute. reflexivity.
Defined.

(** *** Tokens *)

Lemma chars_app a b : chars (a +:+ b) = chars a ++ chars b.
Proof. unfold chars. induction a as [|c a IH]; simpl; [done|]. by rewrite IH. Qed.

Lemma chars_inj a b : chars a = chars b → a = b.
Proof.
  unfold chars. intros H.
  by rewrite <-(string_of_list_ascii_of_string a), H,
    string_of_list_ascii_of_string.
Qed.

Lemma chars_rev_string s : chars (rev_string s) = reverse (chars s).
Proof.
  induction s as [|c s IH]; [done|]. cbn [rev_string].
  rewrite chars_app, IH. unfold chars. simpl. by rewrite reverse_cons.
Qed.

Lemma rev_string_involutive s : rev_string (rev_string s) = s.
Proof.
  apply chars_inj. by rewrite !chars_rev_string, reverse_involutive.
Qed.

Section strip_head.
Context (sp1 : ascii → bool) (sp2 : ascii → ascii → bool)
  (sp3 : ascii → ascii → ascii → bool).

Lemma strip_head_unfold s :
  strip_head sp1 sp2 sp3 s =
  match skip_head sp1 sp2 sp3 s with
  | Some r => strip_head sp1 sp2 sp3 r
  | None => s
  end.
Proof.
  destruct s as [|c [|d [|e r]]]; simpl; [done|..].
  - by destruct (sp1 c).
  - destruct (sp1 c); [done|]. by destruct (sp2 c d).
  - destruct (sp1 c); [done|]. destruct (sp2 c d); [done|].
    by destruct (sp3 c d e).
Qed.

(** The rest after a skipped character is a proper end of the string. *)
Lemma skip_head_suffix s r :
  skip_head sp1 sp2 sp3 s = Some r →
  ∃ pre, s = pre +:+ r ∧ (String.length r < String.length s)%nat.
Proof.
  destruct s as [|c [|d [|e r']]]; simpl; [done|..].
  - destruct (sp1 c); [|done]. intros [= <-].
    exists (String c ""). simpl. split; [done|lia].
  - destruct (sp1 c).
    { intros [= <-]. exists (String c ""). simpl. split; [done|lia]. }
    destruct (sp2 c d); [|done]. intros [= <-].
    exists (String c (String d "")). simpl. split; [done|lia].
  - destruct (sp1 c).
    { intros [= <-]. exists (String c ""). simpl. split; [done|lia]. }
    destruct (sp2 c d).
    { intros [= <-]. exists (String c (String d "")). simpl. split; [done|lia]. }
    destruct (sp3 c d e); [|done]. intros [= <-].
    exists (String c (String d (String e ""))). simpl. split; [done|lia].
Qed.

(** What [strip_head] returns is an end of the string with no such
    character at its head. *)
Lemma strip_head_spec s :
  skip_head sp1 sp2 sp3 (strip_head sp1 sp2 sp3 s) = None
  ∧ ∃ pre, s = pre +:+ strip_head sp1 sp2 sp3 s.
Proof.
  remember (String.length s) as n eqn:Hn. revert s Hn.
  induction n as [n IH] using lt_wf_ind. intros s ->.
  rewrite strip_head_unfold.
  destruct (skip_head sp1 sp2 sp3 s) as [r|] eqn:Hskip.
  - apply skip_head_suffix in Hskip as (pre & -> & Hlen).
    destruct (IH _ Hlen r eq_refl) as [Hnone [pre' Hpre']].
    split; [done|]. exists (pre +:+ pre').
    apply chars_inj. rewrite !chars_app. rewrite Hpre' at 1.
    by rewrite chars_app, (assoc_L (++)).
  - split; [done|]. by exists "".
Qed.

Lemma strip_head_id s :
  skip_head sp1 sp2 sp3 s = None → strip_head sp1 sp2 sp3 s = s.
Proof. intros H. by rewrite strip_head_unfold, H. Qed.

(** A string with such a character at its head keeps it when it is
    extended at its end. *)
Lemma skip_head_prefix p q :
  skip_head sp1 sp2 sp3 (p +:+ q) = None → skip_head sp1 sp2 sp3 p = None.
Proof.
  destruct p as [|c [|d [|e p]]]; simpl; [done|..].
  - by destruct (sp1 c).
  - destruct (sp1 c); [done|]. by destruct (sp2 c d).
  - destruct (sp1 c); [done|]. destruct (sp2 c d); [done|].
    by destruct (sp3 c d e).
Qed.
End strip_head.

Lemma lstrip_spec s :
  space_at_head (lstrip s) = false ∧ ∃ pre, s = pre +:+ lstrip s.
Proof.
  destruct (strip_head_spec is_space is_space2 is_space3 s) as [Hnone Hpre].
  split; [|done]. unfold space_at_head, lstrip. rewrite Hnone.
  apply bool_decide_eq_false. by intros [].
Qed.

Lemma rstrip_spec s :
  space_at_end (rstrip s) = false ∧ ∃ post, s = rstrip s +:+ post.
Proof.
  unfold space_at_end, rstrip. rewrite rev_string_involutive.
  destruct (strip_head_spec is_space (λ c d, is_space2 d c)
              (λ c d e, is_space3 e d c) (rev_string s)) as [Hnone [pre Hpre]].
  split.
  - rewrite Hnone. apply bool_decide_eq_false. by intros [].
  - exists (rev_string pre). apply chars_inj.
    rewrite chars_app, !chars_rev_string, <-reverse_app, <-chars_app, <-Hpre.
    by rewrite chars_rev_string, reverse_involutive.
Qed.

Lemma space_at_head_prefix p q :
  space_at_head (p +:+ q) = false → space_at_head p = false.
Proof.
  unfold space_at_head. rewrite !bool_decide_eq_false, <-!eq_None_not_Some.
  apply skip_head_prefix.
Qed.

(** What [strip] returns has no white space at either end, and is a piece
    of the string. *)
Lemma strip_spec s :
  space_at_head (strip s) = false ∧ space_at_end (strip s) = false
  ∧ ∃ pre post, s = pre +:+ strip s +:+ post.
Proof.
  unfold strip.
  destruct (lstrip_spec s) as [Hhead [pre Hpre]].
  destruct (rstrip_spec (lstrip s)) as [Hend [post Hpost]].
  split_and!; [|done|].
  - apply (space_at_head_prefix _ post). by rewrite <-Hpost.
  - exists pre, post. by rewrite <-Hpost.
Qed.

(** A string with no white space at either end is left as it is. *)
Lemma strip_clean s :
  space_at_head s = false → space_at_end s = false → strip s = s.
Proof.
  unfold space_at_head, space_at_end, strip, lstrip, rstrip.
  rewrite !bool_decide_eq_false, <-!eq_None_not_Some. intros Hh He.
  rewrite (strip_head_id _ _ _ s) by done.
  rewrite strip_head_id by done. apply rev_string_involutive.
Qed.

Lemma strip_chars s c : c ∈ chars (strip s) → c ∈ chars s.
Proof.
  destruct (strip_spec s) as (_ & _ & pre & post & Hs). intros Hc.
  rewrite Hs, !chars_app, !elem_of_app. auto.
Qed.

Lemma split_no_sep sep s piece :
  piece ∈ split sep s → sep ∉ chars piece.
Proof.
  unfold chars. revert piece. induction s as [|c s IH]; intros piece; simpl.
  - intros ->%list_elem_of_singleton. apply not_elem_of_nil.
  - destruct (Ascii.eqb c sep) eqn:Hc.
    + intros [->|H]%elem_of_cons; [apply not_elem_of_nil|by apply IH].
    + apply Ascii.eqb_neq in Hc. destruct (split sep s) as [|p ps].
      * intros ->%list_elem_of_singleton. simpl.
        by intros [->|?%elem_of_nil]%elem_of_cons.
      * intros [->|H]%elem_of_cons.
        -- simpl. intros [->|H]%elem_of_cons; [done|].
           by apply (IH p); [apply list_elem_of_here|].
        -- by apply IH, list_elem_of_further.
Qed.

(** X21.  Every token the run uses is clean: not empty, without white
    space (of [str.isspace], ASCII or not) at either end, without a
    comma. *)
Theorem parsed_tokens_clean token_str t :
  t ∈ parse_tokens token_str → clean_token t.
Proof.
  unfold parse_tokens.
  intros [Hne (piece & -> & Hpiece)%list_elem_of_fmap]%list_elem_of_filter.
  destruct (strip_spec piece) as (Hhead & Hend & _).
  split_and!; [done..|].
  intros Hc. apply (split_no_sep _ _ _ Hpiece). by apply strip_chars.
Qed.

Lemma parsed_tokens_clean_witness : clean_token "ghp_two".
Proof.
  apply (parsed_tokens_clean "ghp_one, ghp_two").
  vm_compute. apply list_elem_of_further, list_elem_of_here.
Defined.

Lemma split_without_sep sep t : sep ∉ chars t → split sep t = [t].
Proof.
  unfold chars. induction t as [|c t IH]; simpl; [done|].
  intros [Hc Ht]%not_elem_of_cons.
  rewrite (proj2 (Ascii.eqb_neq c sep)) by done. by rewrite IH.
Qed.

Lemma split_append sep t rest :
  sep ∉ chars t →
  split sep (t +:+ String sep rest) = t :: split sep rest.
Proof.
  unfold chars. induction t as [|c t IH]; simpl.
  - intros _. by rewrite Ascii.eqb_refl.
  - intros [Hc Ht]%not_elem_of_cons.
    rewrite (proj2 (Ascii.eqb_neq c sep)) by done. by rewrite IH.
Qed.

Lemma split_concat sep ts :
  ts ≠ [] → Forall (λ t, sep ∉ chars t) ts →
  split sep (String.concat (String sep EmptyString) ts) = ts.
Proof.
  induction ts as [|t ts IH]; [done|]. intros _ [Ht Hts]%Forall_cons.
  destruct ts as [|t' ts].
  - by apply split_without_sep.
  - change (String.concat (String sep EmptyString) (t :: t' :: ts))
      with (t +:+ String sep (String.concat (String sep EmptyString) (t' :: ts))).
    rewrite split_append by done. f_equal. by apply IH.
Qed.

(** X22.  Round trip of the token list: clean tokens (not empty, no white
    space of [str.isspace] at either end, no comma) joined with commas
    are parsed back to the same list, in the same order. *)
Theorem parse_joined_tokens ts :
  Forall clean_token ts →
  parse_tokens (String.concat "," ts) = ts.
Proof.
  intros Hts. unfold parse_tokens.
  destruct ts as [|t ts]; [done|].
  rewrite split_concat; [|done|].
  2:{ eapply Forall_impl; [done|]. by intros t' (_ & _ & _ & ?). }
  assert (strip <$> t :: ts = t :: ts) as ->.
  { induction Hts as [|t' ts' (_ & Hh & He & _) _ IH]; [done|].
    by rewrite fmap_cons, strip_clean, IH. }
  induction Hts as [|t' ts' (Hne & _ & _) _ IH]; [done|].
  by rewrite filter_cons_True, IH.
Qed.

Lemma parse_joined_tokens_witness :
  parse_tokens (String.concat "," ["ghp_one"; "ghp_two"])
  = ["ghp_one"; "ghp_two"].
Proof.
  apply (parse_joined_tokens ["ghp_one"; "ghp_two"]).
  repeat apply Forall_cons_2; [| |apply Forall_nil_2];
    (split_and!; [reflexivity|reflexivity|reflexivity|]);
    apply (bool_decide_unpack _); vm_compute; exact I.
Defined.

(** *** Order of the years *)

Lemma string_ltb_leb a b : String.ltb a b = true → String.leb a b = true.
Proof. unfold String.ltb, String.leb. by destruct (String.compare a b). Qed.

Lemma string_ltb_asym a b :
  String.ltb a b = true → String.ltb b a = true → False.
Proof.
  unfold String.ltb. rewrite (String.compare_antisym b a).
  by destruct (String.compare a b).
Qed.

Lemma string_gt_trans : Transitive string_gt.
Proof.
  intros a b c Hab Hbc. unfold string_gt in *.
  apply string_leb_ne_ltb.
  - eapply string_leb_trans; by apply string_ltb_leb.
  - intros ->. by apply (string_ltb_asym a b).
Qed.

Lemma descending_Sorted l : descending l = true → Sorted string_gt l.
Proof.
  induction l as [|a l IH]; [constructor|].
  destruct l as [|b l]; [by repeat constructor|].
  cbn [descending]. intros [Hab Hl]%andb_prop.
  constructor; [by apply IH|]. by constructor.
Qed.

(** On the years 2016 to 9999 the order of the labels is the order of the
    years: checked on the 7984 neighbouring pairs. *)
Lemma year_labels_descending :
  descending (str <$> range_down 9999 2015) = true.
Proof. vm_compute. reflexivity. Qed.

Lemma range_down_suffix now :
  2015 ≤ now ≤ 9999 →
  ∃ pre, range_down 9999 2015 = pre ++ range_down now 2015.
Proof.
  intros Hnow. unfold range_down.
  replace (Z.to_nat (9999 - 2015))
    with (Z.to_nat (9999 - now) + Z.to_nat (now - 2015))%nat by lia.
  rewrite seq_app, fmap_app. eexists. f_equal.
  replace (seq (0 + Z.to_nat (9999 - now)) (Z.to_nat (now - 2015)))
    with (Nat.add (Z.to_nat (9999 - now)) <$> seq 0 (Z.to_nat (now - 2015)))
    by (rewrite fmap_add_seq; f_equal; lia).
  rewrite <-list_fmap_compose.
  apply list_fmap_ext. intros _ i _. simpl. lia.
Qed.

Lemma range_down_empty now stop : now ≤ stop → range_down now stop = [].
Proof.
  intros H. unfold range_down. by replace (Z.to_nat (now - stop)) with 0%nat by lia.
Qed.

Lemma range_down_NoDup start stop : NoDup (range_down start stop).
Proof.
  unfold range_down. apply NoDup_fmap_2_strong; [|apply NoDup_seq].
  intros i j _ _ H. lia.
Qed.

Lemma year_labels_sorted now :
  now ≤ 9999 → StronglySorted string_gt (str <$> range_down now 2015).
Proof.
  intros Hnow. destruct (decide (now < 2015)) as [Hlt|Hge].
  { rewrite range_down_empty by lia. constructor. }
  destruct (range_down_suffix now) as [pre Hpre]; [lia|].
  pose proof (descending_Sorted _ year_labels_descending) as Hs.
  apply (@Sorted_StronglySorted _ _ string_gt_trans) in Hs.
  rewrite Hpre, fmap_app in Hs. by apply StronglySorted_app_1_r in Hs.
Qed.

(** X23.  Up to the year 9999, and when the manual file brings no year
    label of its own, the keys of the written mapping are the labels of
    the years in numeric order, the current year first and 2016 last. *)
Theorem output_most_recent_first env status w content :
  script env = (status, w) →
  output_file w = Some content →
  now_year env ≤ 9999 →
  manual_years (manual env) ⊆ list_to_set (str <$> years_of env) →
  content.*1 = str <$> years_of env.
Proof.
  intros Hs Hout Hnow Hmanual.
  assert (∀ k, k ∈ content.*1 ↔ k ∈ str <$> years_of env) as Hkeys.
  { intros k.
    destruct (script_written _ _ _ _ Hs Hout) as (all & w1 & m & Hy & Hm & ->).
    rewrite sorted_desc_keys.
    pose proof (for_years_dom_exact _ _ _ _ _ _ _ k Hy) as Hk.
    rewrite dom_empty_L in Hk. fold (years_of env) in Hk.
    assert (k ∈ dom m → k ∈ str <$> years_of env) as Hm'.
    { intros Hin. apply (elem_of_list_to_set (C:=gset string)), Hmanual.
      destruct (manual env) as [| |m0]; simpl in Hm; [|done|];
        injection Hm as Hm; subst m; [|done].
      by rewrite dom_empty_L in Hin. }
    case_decide.
    - rewrite Hk. split; [by intros [[]%not_elem_of_empty|?]|by right].
    - rewrite dom_merge_contributions, elem_of_union, Hk.
      split; [intros [[[]%not_elem_of_empty|?]|?]; auto|]. intros ?. left. by right. }
  assert (StronglySorted string_gt content.*1) as Hsorted.
  { destruct (script_written _ _ _ _ Hs Hout) as (all & w1 & m & _ & _ & ->).
    apply (StronglySorted_fmap fst key_gt string_gt); [done|].
    apply StronglySorted_key_gt; [|apply sorted_desc_NoDup].
    unfold sorted_desc.
    apply (@StronglySorted_merge_sort _ key_ge _ key_ge_trans key_ge_total). }
  apply (StronglySorted_unique_strong string_gt); [|done| |].
  - intros a b _ _ Hab Hba. by destruct (string_ltb_asym a b).
  - by apply year_labels_sorted.
  - apply NoDup_Permutation; [|by apply NoDup_fmap_2; [apply _|apply range_down_NoDup]|done].
    destruct (script_written _ _ _ _ Hs Hout) as (all & w1 & m & _ & _ & ->).
    apply sorted_desc_NoDup.
Qed.

Lemma output_most_recent_first_witness :
  by_hand_only_output.*1 = str <$> [2021; 2020; 2019; 2018; 2017; 2016].
Proof.
  apply (output_most_recent_first by_hand_only 0
           (World [] (Some by_hand_only_output)) by_hand_only_output).
  - vm_compute. reflexivity.
  - reflexivity.
  - vm_compute. discriminate.
  - apply (bool_decide_unpack _). vm_compute. exact I.
Defined.

(** The distinct logins of the written file, on the run of
    [by_hand_2010]. *)
Lemma written_logins_distinct_witness :
  NoDup (login <$> [Initech_by_hand; Acme_by_hand]).
Proof.
  apply (written_logins_distinct by_hand_2010 0
           (World (sent (script by_hand_2010).2) (Some by_hand_2010_output))
           by_hand_2010_output "2010").
  - vm_compute. reflexivity.
  - reflexivity.
  - do 2 apply list_elem_of_further. apply list_elem_of_here.
Defined.
